(** * UDLib: CoNLL-U records as dependency graphs

    A shallow embedding of [UDLib.py] (the [UDNode], [UDEdge] and [UDTree]
    dataclasses and the [conllu2graph] builder) and the properties of its
    parsing, graph construction, traversal and rendering. *)

From stdpp Require Import gmap list fin_maps strings.
From Stdlib Require Import NArith Lia.

Set Default Proof Using "Type".

(** ** Python strings

    A Python [str] is a sequence of Unicode code points. A character is
    its code point, a string the list of its characters. *)

Definition char := N.
Definition str := list N.

Definition TAB : char := 9%N.      (* "\t" *)
Definition LF : char := 10%N.      (* "\n" *)
Definition VT : char := 11%N.      (* "\x0b" *)
Definition FF : char := 12%N.      (* "\x0c" *)
Definition CR : char := 13%N.      (* "\r" *)
Definition FS : char := 28%N.      (* "\x1c" *)
Definition GS : char := 29%N.      (* "\x1d" *)
Definition RS : char := 30%N.      (* "\x1e" *)
Definition SPACE : char := 32%N.   (* " " *)
Definition HASH : char := 35%N.    (* "#" *)
Definition NEL : char := 133%N.    (* "\x85" *)
Definition LSEP : char := 8232%N.  (* U+2028 *)
Definition PSEP : char := 8233%N.  (* U+2029 *)

Definition str_underscore : str := [95%N].               (* "_" *)
Definition str_zero : str := [48%N].                     (* "0" *)
Definition str_up : str := [117%N; 112%N].               (* "up" *)
Definition str_down : str := [100%N; 111%N; 119%N; 110%N]. (* "down" *)

(** The line boundaries of [str.splitlines]. *)
Definition is_linebreak (c : char) : bool :=
  (c =? LF)%N || (c =? CR)%N || (c =? VT)%N || (c =? FF)%N ||
  (c =? FS)%N || (c =? GS)%N || (c =? RS)%N || (c =? NEL)%N ||
  (c =? LSEP)%N || (c =? PSEP)%N.

(** [s.splitlines()]: [cur] is the line read so far. A line ends at a line
    boundary, "\r\n" counting as one; the boundary is dropped, and a
    string that ends with a boundary has no empty last line. *)
Fixpoint splitlines_from (cur : str) (s : str) : list str :=
  match s with
  | [] => match cur with [] => [] | _ :: _ => [cur] end
  | c :: rest =>
      if is_linebreak c then
        cur :: match rest with
               | c2 :: rest' =>
                   if (c =? CR)%N && (c2 =? LF)%N
                   then splitlines_from [] rest'
                   else splitlines_from [] rest
               | [] => splitlines_from [] rest
               end
      else splitlines_from (cur ++ [c]) rest
  end.

Definition splitlines (s : str) : list str := splitlines_from [] s.

(** [s.split(sep)] for a separator of one character. *)
Fixpoint split_from (sep : char) (cur : str) (s : str) : list str :=
  match s with
  | [] => [cur]
  | c :: rest =>
      if (c =? sep)%N then cur :: split_from sep [] rest
      else split_from sep (cur ++ [c]) rest
  end.

Definition split (sep : char) (s : str) : list str := split_from sep [] s.

(** [sep.join(l)]. *)
Fixpoint join (sep : str) (l : list str) : str :=
  match l with
  | [] => []
  | [x] => x
  | x :: rest => x ++ sep ++ join sep rest
  end.

(** [s.strip(chars)] for a set of one character: leading and trailing
    occurrences are removed. *)
Fixpoint lstrip (c : char) (s : str) : str :=
  match s with
  | [] => []
  | x :: rest => if (x =? c)%N then lstrip c rest else s
  end.

Definition rstrip (c : char) (s : str) : str :=
  reverse (lstrip c (reverse s)).

Definition strip (c : char) (s : str) : str := rstrip c (lstrip c s).

(** [s.startswith(c)] for a prefix of one character. *)
Definition startswith (c : char) (s : str) : bool :=
  match s with
  | [] => false
  | x :: _ => (x =? c)%N
  end.

(** ** Exceptions

    The exceptions the module can raise, and the result of a call that
    returns a value or raises. *)

Inductive exn : Type :=
  | AssertionError
  | TypeError
  | KeyError (k : str)
  | IndexError.

Inductive result (A : Type) : Type :=
  | Ok (a : A)
  | Raise (e : exn).

Arguments Ok {A} a.
Arguments Raise {A} e.

Definition rbind {A B} (r : result A) (f : A → result B) : result B :=
  match r with
  | Ok a => f a
  | Raise e => Raise e
  end.

Declare Scope result_scope.
Delimit Scope result_scope with result.
Notation "'let*' x ':=' r 'in' k" := (rbind r (fun x => k))
  (at level 10, x name, r at level 100, k at level 200) : result_scope.
Open Scope result_scope.

(** ** Data model *)

Record UDNode : Type := mkUDNode {
  ID : str;
  FORM : str;
  LEMMA : str;
  UPOS : str;
  XPOS : str;
  FEATS : str;
  HEAD : str;
  DEPREL : str;
  DEPS : str;
  MISC : str
}.

(** [UDNode.__str__]: the fields in the order they are declared. *)
Definition UDNode_fields (n : UDNode) : list str :=
  [ID n; FORM n; LEMMA n; UPOS n; XPOS n; FEATS n; HEAD n; DEPREL n; DEPS n;
   MISC n].

Definition UDNode_str (n : UDNode) : str := join [TAB] (UDNode_fields n).

(** [UDNode( *fields )]: the generated constructor takes exactly ten
    positional arguments. *)
Definition UDNode_of_fields (fields : list str) : result UDNode :=
  match fields with
  | [f0; f1; f2; f3; f4; f5; f6; f7; f8; f9] =>
      Ok (mkUDNode f0 f1 f2 f3 f4 f5 f6 f7 f8 f9)
  | _ => Raise TypeError
  end.

Record UDEdge : Type := mkUDEdge {
  head : str;
  relation : str;
  directionality : str
}.

#[global] Instance UDEdge_eq_dec : EqDecision UDEdge.
Proof. solve_decision. Defined.

(** The [nodes] dictionary is a plain [dict]; the [graph] is a
    [defaultdict(list)], whose data is the same kind of map and whose
    item access is [graph_getitem] below. *)

Record UDTree : Type := mkUDTree {
  id_lines : list str;
  keys : list str;
  nodes : gmap str UDNode;
  graph : gmap str (list UDEdge)
}.

(** [d[k]] on a plain dictionary. *)
Definition dict_getitem {V} (d : gmap str V) (k : str) : result V :=
  match d !! k with
  | Some v => Ok v
  | None => Raise (KeyError k)
  end.

(** [l[i]] on a list. *)
Definition list_getitem {A} (l : list A) (i : nat) : result A :=
  match l !! i with
  | Some x => Ok x
  | None => Raise IndexError
  end.

(** [g[k]] on a [defaultdict(list)]: a missing key is first bound to a new
    empty list. The value and the dictionary after the access. *)
Definition graph_getitem (g : gmap str (list UDEdge)) (k : str)
    : list UDEdge * gmap str (list UDEdge) :=
  match g !! k with
  | Some es => (es, g)
  | None => ([], <[k := []]> g)
  end.

(** [g[k].append(e)]. *)
Definition graph_append (g : gmap str (list UDEdge)) (k : str) (e : UDEdge)
    : gmap str (list UDEdge) :=
  let '(es, g') := graph_getitem g k in <[k := es ++ [e]]> g'.

(** ** [conllu2graph] *)

(** The body of the loop for one line, on the four local variables. *)
Definition conllu2graph_line (t : UDTree) (line : str) : result UDTree :=
  if startswith HASH line then
    Ok (mkUDTree (id_lines t ++ [line]) (keys t) (nodes t) (graph t))
  else
    let fields := split TAB (strip LF line) in
    if negb (length fields =? 10)%nat then Raise AssertionError else
    let* key := list_getitem fields 0 in
    let keys' := keys t ++ [key] in
    let* ud_node := UDNode_of_fields fields in
    let nodes' := <[key := ud_node]> (nodes t) in
    let parent := HEAD ud_node in
    if bool_decide (parent = str_underscore) then
      Ok (mkUDTree (id_lines t) keys' nodes' (graph t))
    else
      let relation := DEPREL ud_node in
      let g1 := graph_append (graph t) key (mkUDEdge parent relation str_up) in
      let g2 := graph_append g1 parent (mkUDEdge key relation str_down) in
      Ok (mkUDTree (id_lines t) keys' nodes' g2).

Fixpoint conllu2graph_loop (t : UDTree) (lines : list str) : result UDTree :=
  match lines with
  | [] => Ok t
  | line :: rest =>
      let* t' := conllu2graph_line t line in conllu2graph_loop t' rest
  end.

(** The returned tuple [(id_lines, keys, nodes, graph)] is the argument
    list of the [UDTree] constructor. *)
Definition conllu2graph (record : str) : result UDTree :=
  conllu2graph_loop (mkUDTree [] [] ∅ ∅) (splitlines record).

(** ** [UDTree] methods *)

Fixpoint mapM {A B} (f : A → result B) (l : list A) : result (list B) :=
  match l with
  | [] => Ok []
  | x :: rest =>
      let* y := f x in
      let* ys := mapM f rest in
      Ok (y :: ys)
  end.

(** [UDTree.__str__]. *)
Definition UDTree_str (t : UDTree) : result str :=
  let* rows := mapM (fun key => let* n := dict_getitem (nodes t) key in
                                Ok (UDNode_str n)) (keys t) in
  Ok (join [LF] (id_lines t ++ rows)).

Section Sentence.

(** [str.lower] is the interpreter's Unicode lower-casing. *)
Variable lower : str → str.

Definition get_sentence (t : UDTree) : result str :=
  let* forms := mapM (fun key => let* n := dict_getitem (nodes t) key in
                                 Ok (lower (FORM n))) (keys t) in
  Ok (join [SPACE] forms).

End Sentence.

(** [get_node_children] reads [self.graph[node_idx]], which can bind
    [node_idx] in the graph: the result comes with the tree after the
    call. *)
Definition get_node_children (t : UDTree) (node_idx : str)
    : list str * UDTree :=
  let '(es, g') := graph_getitem (graph t) node_idx in
  (map head (filter (λ el, directionality el = str_down) es),
   mkUDTree (id_lines t) (keys t) (nodes t) g').

Definition get_real_root (t : UDTree) : result str * UDTree :=
  let '(children, t') := get_node_children t str_zero in
  (match children with
   | c :: _ => Ok c
   | [] => Raise IndexError
   end, t').

(** * Properties *)

(** ** Strings *)

Definition clean_line (l : str) : Prop :=
  Forall (λ c, is_linebreak c = false) l.

Lemma LF_is_linebreak : is_linebreak LF = true.
Proof. reflexivity. Qed.

Lemma clean_line_no_LF l : clean_line l → LF ∉ l.
Proof.
  intros Hl Hin. eapply Forall_forall in Hl; [|exact Hin]. discriminate.
Qed.

Lemma splitlines_from_app l cur rest :
  clean_line l →
  splitlines_from cur (l ++ rest) = splitlines_from (cur ++ l) rest.
Proof.
  intros Hl. revert cur. induction Hl as [|c l Hc _ IH]; intros cur.
  - by rewrite app_nil_r.
  - cbn [app splitlines_from]. rewrite Hc, IH. by rewrite <- app_assoc.
Qed.

Lemma splitlines_from_LF cur rest :
  splitlines_from cur (LF :: rest) = cur :: splitlines_from [] rest.
Proof. cbn [splitlines_from]. rewrite LF_is_linebreak. by destruct rest. Qed.

Lemma splitlines_join ls :
  Forall (λ l, clean_line l ∧ l ≠ []) ls →
  splitlines (join [LF] ls) = ls.
Proof.
  unfold splitlines. induction 1 as [|x ls [Hx Hne] Hls IH]; [done|].
  destruct ls as [|y ls].
  - cbn [join]. rewrite <- (app_nil_r x) at 1.
    rewrite splitlines_from_app by done. cbn. by destruct x.
  - change (join [LF] (x :: y :: ls)) with (x ++ LF :: join [LF] (y :: ls)).
    rewrite splitlines_from_app by done. cbn [app].
    by rewrite splitlines_from_LF, IH.
Qed.

Lemma splitlines_from_clean n : ∀ s cur,
  length s ≤ n → clean_line cur →
  Forall clean_line (splitlines_from cur s).
Proof.
  induction n as [|n IH]; intros [|c rest] cur Hn Hcur; cbn in Hn; try lia.
  - destruct cur; cbn; auto.
  - destruct cur; cbn; auto.
  - cbn [splitlines_from]. destruct (is_linebreak c) eqn:Hc.
    + constructor; [done|]. destruct rest as [|c2 rest'].
      * cbn. constructor.
      * cbn in Hn. destruct ((c =? CR)%N && (c2 =? LF)%N);
          apply IH; cbn; try lia; constructor.
    + apply IH; [lia|]. apply Forall_app; split; [done|]. by constructor.
Qed.

Lemma splitlines_clean s : Forall clean_line (splitlines s).
Proof. by apply (splitlines_from_clean (length s)); [lia|constructor]. Qed.

Lemma split_from_app sep l cur rest :
  sep ∉ l →
  split_from sep cur (l ++ rest) = split_from sep (cur ++ l) rest.
Proof.
  revert cur. induction l as [|c l IH]; intros cur Hl.
  - by rewrite app_nil_r.
  - cbn [app split_from]. apply not_elem_of_cons in Hl as [Hc Hl].
    destruct (N.eqb_spec c sep) as [->|_]; [done|].
    rewrite IH by done. by rewrite <- app_assoc.
Qed.

Lemma split_from_sep sep cur rest :
  split_from sep cur (sep :: rest) = cur :: split_from sep [] rest.
Proof. cbn. by rewrite N.eqb_refl. Qed.

Lemma split_join sep fs :
  fs ≠ [] → Forall (λ f, sep ∉ f) fs → split sep (join [sep] fs) = fs.
Proof.
  unfold split. intros Hne Hfs. induction Hfs as [|x fs Hx Hfs IH]; [done|].
  destruct fs as [|y fs].
  - cbn [join]. rewrite <- (app_nil_r x) at 1.
    by rewrite split_from_app.
  - change (join [sep] (x :: y :: fs)) with (x ++ sep :: join [sep] (y :: fs)).
    rewrite split_from_app by done. cbn [app].
    by rewrite split_from_sep, IH.
Qed.

Lemma lstrip_not_elem c s : c ∉ s → lstrip c s = s.
Proof.
  destruct s as [|x s]; [done|]. intros [Hx _]%not_elem_of_cons. cbn.
  by destruct (N.eqb_spec x c).
Qed.

Lemma strip_not_elem c s : c ∉ s → strip c s = s.
Proof.
  intros Hs. unfold strip, rstrip. rewrite (lstrip_not_elem c s) by done.
  rewrite lstrip_not_elem; [apply reverse_involutive|].
  by rewrite elem_of_reverse.
Qed.

Lemma join_not_nil sep x y l : join [sep] (x :: y :: l) ≠ [].
Proof. cbn [join]. by destruct x. Qed.

(** ** The builder, line by line *)

Definition is_comment (line : str) : Prop := startswith HASH line = true.

#[global] Instance is_comment_dec line : Decision (is_comment line).
Proof. unfold is_comment. apply _. Defined.

(** The fields the loop body reads off a line that is not a comment. *)
Definition line_fields (line : str) : list str := split TAB (strip LF line).

Definition comment_lines (lines : list str) : list str :=
  filter is_comment lines.

Definition node_lines (lines : list str) : list str :=
  filter (λ l, ¬ is_comment l) lines.

(** A block is well formed when each line that is not a comment has ten
    fields. *)
Definition well_formed (lines : list str) : Prop :=
  Forall (λ l, length (line_fields l) = 10) (node_lines lines).

(** The node a line denotes. *)
Definition line_node (line : str) : option UDNode :=
  match UDNode_of_fields (line_fields line) with
  | Ok n => Some n
  | Raise _ => None
  end.

Definition lines_nodes (lines : list str) : list UDNode :=
  omap line_node (node_lines lines).

Definition up_edge (n : UDNode) : UDEdge := mkUDEdge (HEAD n) (DEPREL n) str_up.
Definition down_edge (n : UDNode) : UDEdge := mkUDEdge (ID n) (DEPREL n) str_down.

(** The two appends of the loop body for one node. *)
Definition add_node_edges (g : gmap str (list UDEdge)) (n : UDNode)
    : gmap str (list UDEdge) :=
  if bool_decide (HEAD n = str_underscore) then g
  else graph_append (graph_append g (ID n) (up_edge n)) (HEAD n) (down_edge n).

Definition add_node (m : gmap str UDNode) (n : UDNode) : gmap str UDNode :=
  <[ID n := n]> m.

Lemma UDNode_of_fields_length fields :
  length fields = 10 →
  ∃ n, UDNode_of_fields fields = Ok n ∧ UDNode_fields n = fields.
Proof.
  intros Hlen. do 11 (destruct fields as [|? fields]; try discriminate).
  eexists; split; reflexivity.
Qed.

Lemma UDNode_of_fields_fields n : UDNode_of_fields (UDNode_fields n) = Ok n.
Proof. by destruct n. Qed.

Lemma UDNode_of_fields_Ok fields n :
  UDNode_of_fields fields = Ok n → UDNode_fields n = fields.
Proof.
  intros H. do 11 (destruct fields as [|? fields]; try discriminate).
  by injection H as <-.
Qed.

Lemma line_node_Some line n :
  line_node line = Some n ↔ UDNode_fields n = line_fields line.
Proof.
  unfold line_node. split.
  - destruct (UDNode_of_fields _) eqn:E; [|done].
    intros [= ->]. by apply UDNode_of_fields_Ok.
  - intros <-. by rewrite UDNode_of_fields_fields.
Qed.

Lemma line_node_length line :
  length (line_fields line) = 10 → is_Some (line_node line).
Proof.
  intros (n & Hn & _)%UDNode_of_fields_length. unfold line_node.
  rewrite Hn. by eexists.
Qed.

Lemma conllu2graph_line_comment t line :
  is_comment line →
  conllu2graph_line t line =
    Ok (mkUDTree (id_lines t ++ [line]) (keys t) (nodes t) (graph t)).
Proof. unfold is_comment, conllu2graph_line. by intros ->. Qed.

Lemma conllu2graph_line_node t line n :
  ¬ is_comment line → line_node line = Some n →
  conllu2graph_line t line =
    Ok (mkUDTree (id_lines t) (keys t ++ [ID n]) (add_node (nodes t) n)
                 (add_node_edges (graph t) n)).
Proof.
  unfold is_comment, conllu2graph_line. intros Hc Hn.
  destruct (startswith HASH line); [done|].
  apply line_node_Some in Hn. fold (line_fields line). rewrite <- Hn.
  rewrite UDNode_of_fields_fields. cbn.
  unfold add_node_edges. by destruct (bool_decide (HEAD n = str_underscore)).
Qed.

Lemma conllu2graph_line_malformed t line :
  ¬ is_comment line → length (line_fields line) ≠ 10 →
  conllu2graph_line t line = Raise AssertionError.
Proof.
  unfold is_comment, conllu2graph_line. intros Hc Hn.
  destruct (startswith HASH line); [done|].
  fold (line_fields line).
  by destruct (Nat.eqb_spec (length (line_fields line)) 10).
Qed.

Lemma conllu2graph_loop_Ok lines : ∀ t,
  well_formed lines →
  conllu2graph_loop t lines =
    Ok (mkUDTree (id_lines t ++ comment_lines lines)
                 (keys t ++ map ID (lines_nodes lines))
                 (foldl add_node (nodes t) (lines_nodes lines))
                 (foldl add_node_edges (graph t) (lines_nodes lines))).
Proof.
  unfold well_formed, lines_nodes, comment_lines, node_lines.
  induction lines as [|line lines IH]; intros t Hwf.
  - cbn. rewrite !app_nil_r. by destruct t.
  - cbn [conllu2graph_loop]. destruct (decide (is_comment line)) as [Hc|Hc].
    + rewrite conllu2graph_line_comment by done. cbn [rbind].
      rewrite filter_cons_True by done.
      rewrite filter_cons_False in Hwf |- * by naive_solver.
      rewrite IH by done. cbn. by rewrite <- app_assoc.
    + rewrite filter_cons_False by done.
      rewrite filter_cons_True in Hwf |- * by done.
      apply Forall_cons in Hwf as [Hlen Hwf].
      destruct (line_node_length _ Hlen) as [n Hn].
      rewrite (conllu2graph_line_node _ _ n) by done. cbn [rbind].
      rewrite IH by done. cbn. rewrite Hn. cbn. by rewrite <- app_assoc.
Qed.

Lemma conllu2graph_loop_malformed lines : ∀ t,
  ¬ well_formed lines → conllu2graph_loop t lines = Raise AssertionError.
Proof.
  unfold well_formed, node_lines.
  induction lines as [|line lines IH]; intros t Hwf.
  - destruct Hwf. constructor.
  - cbn [conllu2graph_loop]. destruct (decide (is_comment line)) as [Hc|Hc].
    + rewrite conllu2graph_line_comment by done. cbn [rbind].
      rewrite filter_cons_False in Hwf by naive_solver. by apply IH.
    + rewrite filter_cons_True in Hwf by done.
      destruct (decide (length (line_fields line) = 10)) as [Hlen|Hlen].
      * destruct (line_node_length _ Hlen) as [n Hn].
        rewrite (conllu2graph_line_node _ _ n) by done. cbn [rbind].
        apply IH. intros Hwf'. apply Hwf. by constructor.
      * by rewrite conllu2graph_line_malformed.
Qed.

(** The lines [splitlines] returns hold no newline, so stripping it
    changes nothing. *)
Lemma line_fields_splitlines record line :
  line ∈ splitlines record → line_fields line = split TAB line.
Proof.
  intros Hin. unfold line_fields. rewrite strip_not_elem; [done|].
  apply clean_line_no_LF.
  by eapply Forall_forall in Hin; [|apply splitlines_clean].
Qed.

(** ** The adjacency lists *)

(** The edges one node adds under the key [k], in the order of the two
    appends. *)
Definition edges_at (k : str) (n : UDNode) : list UDEdge :=
  if bool_decide (HEAD n = str_underscore) then []
  else (if bool_decide (ID n = k) then [up_edge n] else []) ++
       (if bool_decide (HEAD n = k) then [down_edge n] else []).

(** A node takes part in an edge at [k] when it has a head and [k] is its
    key or its head. *)
Definition touches (k : str) (n : UDNode) : Prop :=
  HEAD n ≠ str_underscore ∧ (ID n = k ∨ HEAD n = k).

Lemma graph_append_lookup g k e k' :
  graph_append g k e !! k' =
    if bool_decide (k = k') then Some (g !!! k ++ [e]) else g !! k'.
Proof.
  unfold graph_append, graph_getitem. rewrite lookup_total_alt.
  destruct (g !! k) as [es|] eqn:E; cbn; case_bool_decide; subst;
    by rewrite ?lookup_insert_eq, ?lookup_insert_ne, ?E by done.
Qed.

Lemma graph_append_lookup_total g k e k' :
  graph_append g k e !!! k' =
    if bool_decide (k = k') then g !!! k ++ [e] else g !!! k'.
Proof.
  rewrite !(lookup_total_alt _ k'), graph_append_lookup.
  by case_bool_decide.
Qed.

Lemma graph_append_dom g k e : dom (graph_append g k e) = {[k]} ∪ dom g.
Proof.
  apply set_eq. intros k'. rewrite elem_of_union, elem_of_singleton.
  rewrite !elem_of_dom, graph_append_lookup. case_bool_decide; subst.
  - split; [by left|by eexists].
  - naive_solver.
Qed.

Lemma add_node_edges_lookup_total g n k :
  add_node_edges g n !!! k = g !!! k ++ edges_at k n.
Proof.
  unfold add_node_edges, edges_at.
  case_bool_decide; [by rewrite app_nil_r|].
  rewrite !graph_append_lookup_total.
  repeat case_bool_decide; subst; rewrite ?graph_append_lookup_total;
    repeat case_bool_decide; try done;
    rewrite ?app_nil_r, <- ?app_assoc; congruence.
Qed.

Lemma add_node_edges_dom g n k :
  k ∈ dom (add_node_edges g n) ↔ k ∈ dom g ∨ touches k n.
Proof.
  unfold add_node_edges, touches. case_bool_decide; [naive_solver|].
  rewrite !graph_append_dom. set_solver.
Qed.

Lemma foldl_add_node_edges_lookup_total ns : ∀ g k,
  foldl add_node_edges g ns !!! k = g !!! k ++ concat (map (edges_at k) ns).
Proof.
  induction ns as [|n ns IH]; intros g k; cbn.
  - by rewrite app_nil_r.
  - by rewrite IH, add_node_edges_lookup_total, <- app_assoc.
Qed.

Lemma foldl_add_node_edges_dom ns : ∀ g k,
  k ∈ dom (foldl add_node_edges g ns) ↔ k ∈ dom g ∨ Exists (touches k) ns.
Proof.
  induction ns as [|n ns IH]; intros g k; cbn.
  - rewrite Exists_nil. naive_solver.
  - rewrite IH, add_node_edges_dom, Exists_cons. naive_solver.
Qed.

(** No key is bound to an empty list by the appends. *)
Definition no_empty_entry (g : gmap str (list UDEdge)) : Prop :=
  ∀ k, g !! k ≠ Some [].

Lemma graph_append_no_empty g k e :
  no_empty_entry g → no_empty_entry (graph_append g k e).
Proof.
  intros Hg k'. rewrite graph_append_lookup. case_bool_decide; [|apply Hg].
  intros [= H']. by destruct (g !!! k).
Qed.

Lemma foldl_add_node_edges_no_empty ns : ∀ g,
  no_empty_entry g → no_empty_entry (foldl add_node_edges g ns).
Proof.
  induction ns as [|n ns IH]; intros g Hg; cbn; [done|].
  apply IH. unfold add_node_edges. case_bool_decide; [done|].
  by do 2 apply graph_append_no_empty.
Qed.

Lemma add_node_edges_underscore g n :
  HEAD n = str_underscore → add_node_edges g n = g.
Proof. unfold add_node_edges. intros ->. done. Qed.

Lemma foldl_add_node_edges_filter ns : ∀ g,
  foldl add_node_edges g ns =
    foldl add_node_edges g (filter (λ n, HEAD n ≠ str_underscore) ns).
Proof.
  induction ns as [|n ns IH]; intros g; [done|]. cbn [foldl].
  destruct (decide (HEAD n = str_underscore)) as [Hn|Hn].
  - rewrite filter_cons_False by naive_solver.
    by rewrite add_node_edges_underscore.
  - rewrite filter_cons_True by done. cbn [foldl]. apply IH.
Qed.

(** The [nodes] dictionary binds every key of [keys]. *)
Lemma foldl_add_node_lookup ns : ∀ m k,
  is_Some (m !! k) ∨ k ∈ map ID ns → is_Some (foldl add_node m ns !! k).
Proof.
  induction ns as [|n ns IH]; intros m k; cbn.
  - intros [H|H]; [done|]. by apply elem_of_nil in H.
  - intros H. apply IH. unfold add_node.
    destruct (decide (ID n = k)) as [<-|Hne].
    + left. rewrite lookup_insert_eq. by eexists.
    + rewrite lookup_insert_ne by done.
      destruct H as [H|H]; [by left|right].
      apply elem_of_cons in H as [H|H]; [congruence|done].
Qed.

Lemma foldl_add_node_NoDup ns : ∀ m n,
  NoDup (map ID ns) → n ∈ ns → foldl add_node m ns !! ID n = Some n.
Proof.
  induction ns as [|n' ns IH]; intros m n Hnd Hin; cbn.
  - by apply elem_of_nil in Hin.
  - cbn in Hnd. apply NoDup_cons in Hnd as [Hn' Hnd].
    apply elem_of_cons in Hin as [->|Hin]; [|by apply IH].
    clear IH. revert m. induction ns as [|n'' ns IH]; intros m; cbn.
    + unfold add_node. by rewrite lookup_insert_eq.
    + cbn in Hn', Hnd. apply not_elem_of_cons in Hn' as [Hne Hn'].
      apply NoDup_cons in Hnd as [_ Hnd].
      unfold add_node at 2 3.
      rewrite insert_insert_ne by done. by apply IH.
Qed.

(** ** Whole blocks *)

(** The first field of a line, its ID. *)
Definition line_ID (line : str) : str := default [] (split TAB line !! 0).

(** Every line of the block that is not a comment splits on tab into ten
    fields. *)
Definition block_well_formed (record : str) : Prop :=
  Forall (λ l, length (split TAB l) = 10) (node_lines (splitlines record)).

(** The nodes of a block, one for each line that is not a comment, in the
    order of the lines. *)
Definition block_nodes (record : str) : list UDNode :=
  lines_nodes (splitlines record).

Lemma node_lines_elem_of lines l : l ∈ node_lines lines → l ∈ lines.
Proof. unfold node_lines. by intros [_ ?]%list_elem_of_filter. Qed.

Lemma block_well_formed_lines record :
  block_well_formed record ↔ well_formed (splitlines record).
Proof.
  unfold block_well_formed, well_formed. rewrite !Forall_forall.
  split; intros H l Hl; specialize (H l Hl);
    by rewrite (line_fields_splitlines record) in *
      by by apply node_lines_elem_of.
Qed.

Lemma omap_line_node_ID ls :
  Forall (λ l, length (line_fields l) = 10) ls →
  map ID (omap line_node ls) =
    map (λ l, default [] (line_fields l !! 0)) ls.
Proof.
  induction 1 as [|l ls Hl _ IH]; [done|]. cbn.
  destruct (line_node_length _ Hl) as [n Hn]. rewrite Hn. cbn.
  rewrite IH. f_equal. apply line_node_Some in Hn. by rewrite <- Hn.
Qed.

Lemma omap_line_node_length ls :
  Forall (λ l, length (line_fields l) = 10) ls →
  length (omap line_node ls) = length ls.
Proof.
  induction 1 as [|l ls Hl _ IH]; [done|]. cbn.
  destruct (line_node_length _ Hl) as [n Hn]. rewrite Hn. cbn. by rewrite IH.
Qed.

Lemma block_nodes_ID record :
  block_well_formed record →
  map ID (block_nodes record) = map line_ID (node_lines (splitlines record)).
Proof.
  intros Hwf%block_well_formed_lines. unfold block_nodes, lines_nodes.
  rewrite omap_line_node_ID by done.
  apply map_ext_in. intros l Hl%list_elem_of_In%node_lines_elem_of.
  unfold line_ID. by rewrite (line_fields_splitlines record).
Qed.

(** What the builder returns on a well-formed block. *)
Lemma conllu2graph_Ok record :
  block_well_formed record →
  conllu2graph record =
    Ok (mkUDTree (comment_lines (splitlines record))
                 (map ID (block_nodes record))
                 (foldl add_node ∅ (block_nodes record))
                 (foldl add_node_edges ∅ (block_nodes record))).
Proof.
  intros Hwf%block_well_formed_lines. unfold conllu2graph.
  by rewrite conllu2graph_loop_Ok.
Qed.

(** ** Example blocks *)

Definition str_of_string (x : string) : str :=
  map Ascii.N_of_ascii (String.list_ascii_of_string x).

Definition row (fields : list string) : str :=
  join [TAB] (map str_of_string fields).

Definition example_block : str :=
  join [LF]
    [str_of_string "# sent_id = ex1";
     row ["1"; "The"; "the"; "DET"; "_"; "_"; "2"; "det"; "_"; "_"];
     row ["2"; "cat"; "cat"; "NOUN"; "_"; "_"; "3"; "nsubj"; "_"; "_"];
     row ["3"; "sleeps"; "sleep"; "VERB"; "_"; "_"; "0"; "root"; "_"; "_"]].

(** A multiword-token range row, whose head is the placeholder. *)
Definition multiword_block : str :=
  join [LF]
    [row ["1-2"; "del"; "_"; "_"; "_"; "_"; "_"; "_"; "_"; "_"];
     row ["1"; "de"; "de"; "ADP"; "_"; "_"; "2"; "case"; "_"; "_"];
     row ["2"; "el"; "el"; "DET"; "_"; "_"; "0"; "root"; "_"; "_"]].

(** A row of nine fields after a good one. *)
Definition short_row : str :=
  row ["2"; "cat"; "cat"; "NOUN"; "_"; "_"; "1"; "nsubj"; "_"].

Definition malformed_block : str :=
  join [LF]
    [row ["1"; "The"; "the"; "DET"; "_"; "_"; "0"; "root"; "_"; "_"];
     short_row].

(** ** Field count *)

(** C3. When some line of the block that is not a comment does not split
    on tab into exactly ten fields, the builder raises and returns no
    tuple: the failed [assert len(fields) == 10] is the module's
    malformed-record error, and the result carries no tree. *)
Theorem malformed_record_rejected (record line : str) :
  line ∈ splitlines record →
  ¬ is_comment line →
  length (split TAB line) ≠ 10 →
  conllu2graph record = Raise AssertionError.
Proof.
  intros Hin Hc Hlen. apply conllu2graph_loop_malformed.
  unfold well_formed. rewrite Forall_forall. intros Hwf.
  apply Hlen. rewrite <- (line_fields_splitlines record) by done.
  apply Hwf. unfold node_lines. by apply list_elem_of_filter.
Qed.

Lemma malformed_record_rejected_witness :
  conllu2graph malformed_block = Raise AssertionError.
Proof.
  apply (malformed_record_rejected malformed_block short_row).
  - apply (bool_decide_unpack _). vm_compute. exact I.
  - apply (bool_decide_unpack _). vm_compute. exact I.
  - apply (bool_decide_unpack _). vm_compute. exact I.
Defined.

(** ** Key order *)

(** C5. On a well-formed block the builder returns, and [keys] is the
    sequence of the ID fields of the lines that are not comments, in the
    order of the lines, range rows, placeholder heads and repeated IDs
    included; so it is as long as those lines are many. *)
Theorem keys_in_line_order (record : str) :
  block_well_formed record →
  ∃ t, conllu2graph record = Ok t ∧
       keys t = map line_ID (node_lines (splitlines record)) ∧
       length (keys t) = length (node_lines (splitlines record)).
Proof.
  intros Hwf. eexists. split; [by apply conllu2graph_Ok|]. cbn.
  rewrite block_nodes_ID by done. split; [done|]. by rewrite length_map.
Qed.

Lemma keys_in_line_order_witness :
  ∃ t, conllu2graph multiword_block = Ok t ∧
       keys t = map line_ID (node_lines (splitlines multiword_block)) ∧
       length (keys t) = length (node_lines (splitlines multiword_block)).
Proof.
  apply (keys_in_line_order multiword_block).
  apply (bool_decide_unpack _). vm_compute. exact I.
Defined.

Example keys_multiword :
  map line_ID (node_lines (splitlines multiword_block)) =
    map str_of_string ["1-2"; "1"; "2"].
Proof. vm_compute. reflexivity. Qed.

(** ** Blocks of comments *)

Lemma comment_lines_all lines :
  Forall is_comment lines →
  comment_lines lines = lines ∧ node_lines lines = [].
Proof.
  unfold comment_lines, node_lines.
  induction 1 as [|l lines Hl _ [IH1 IH2]]; [done|].
  rewrite filter_cons_True by done.
  rewrite filter_cons_False by naive_solver. by rewrite IH1, IH2.
Qed.

(** C10. A block whose lines are all comments, the empty block included,
    is built without error: [id_lines] is the lines as they are and in
    their order, [keys], [nodes] and [graph] are empty, and the tree
    renders as the lines joined by single newlines. *)
Theorem comment_only_block (record : str) :
  Forall is_comment (splitlines record) →
  ∃ t, conllu2graph record = Ok t ∧
       id_lines t = splitlines record ∧
       keys t = [] ∧ nodes t = ∅ ∧ graph t = ∅ ∧
       UDTree_str t = Ok (join [LF] (splitlines record)).
Proof.
  intros [Hc Hn]%comment_lines_all.
  assert (block_well_formed record) as Hwf.
  { unfold block_well_formed. rewrite Hn. constructor. }
  eexists. split; [by apply conllu2graph_Ok|].
  unfold block_nodes, lines_nodes, UDTree_str. rewrite Hn, Hc. cbn.
  by rewrite app_nil_r.
Qed.

Definition comment_block : str :=
  join [LF] [str_of_string "# sent_id = ex1"; str_of_string "# text = a b"].

Lemma comment_only_block_witness :
  ∃ t, conllu2graph comment_block = Ok t ∧
       id_lines t = splitlines comment_block ∧
       keys t = [] ∧ nodes t = ∅ ∧ graph t = ∅ ∧
       UDTree_str t = Ok (join [LF] (splitlines comment_block)).
Proof.
  apply (comment_only_block comment_block).
  apply (bool_decide_unpack _). vm_compute. exact I.
Defined.

Example empty_block :
  conllu2graph [] = Ok (mkUDTree [] [] ∅ ∅) ∧
  UDTree_str (mkUDTree [] [] ∅ ∅) = Ok [].
Proof. split; reflexivity. Qed.

(** ** Placeholder heads and graph entries *)

(** C8. On a well-formed block, the nodes whose head is the placeholder
    add nothing to the graph: it is the graph of the other nodes alone.
    A key is bound in the graph exactly when some node with a head has it
    as its key or as its head, and exactly when its list of edges is not
    empty. *)
Theorem placeholder_head_no_edges (record : str) :
  block_well_formed record →
  ∃ t, conllu2graph record = Ok t ∧
       graph t =
         foldl add_node_edges ∅
           (filter (λ n, HEAD n ≠ str_underscore) (block_nodes record)) ∧
       (∀ n k, n ∈ block_nodes record → HEAD n = str_underscore →
               edges_at k n = []) ∧
       (∀ k, graph t !!! k = concat (map (edges_at k) (block_nodes record))) ∧
       (∀ k, k ∈ dom (graph t) ↔ Exists (touches k) (block_nodes record)) ∧
       (∀ k, k ∈ dom (graph t) ↔ graph t !!! k ≠ []).
Proof.
  intros Hwf. eexists. split; [by apply conllu2graph_Ok|]. cbn.
  split; [apply foldl_add_node_edges_filter|].
  split. { intros n k _ Hn. unfold edges_at. by rewrite Hn. }
  split. { intros k. by rewrite foldl_add_node_edges_lookup_total. }
  split.
  - intros k. rewrite foldl_add_node_edges_dom. set_solver.
  - intros k. rewrite elem_of_dom, lookup_total_alt.
    pose proof (foldl_add_node_edges_no_empty (block_nodes record) ∅) as Hne.
    specialize (Hne (λ k, ltac:(by rewrite lookup_empty)) k).
    destruct (foldl add_node_edges ∅ (block_nodes record) !! k) as [es|].
    + cbn. split; [congruence|by eexists].
    + cbn. split; [by intros [? ?]|done].
Qed.

Lemma placeholder_head_no_edges_witness :
  ∃ t, conllu2graph multiword_block = Ok t ∧
       graph t =
         foldl add_node_edges ∅
           (filter (λ n, HEAD n ≠ str_underscore)
              (block_nodes multiword_block)) ∧
       (∀ n k, n ∈ block_nodes multiword_block → HEAD n = str_underscore →
               edges_at k n = []) ∧
       (∀ k, graph t !!! k =
               concat (map (edges_at k) (block_nodes multiword_block))) ∧
       (∀ k, k ∈ dom (graph t) ↔
               Exists (touches k) (block_nodes multiword_block)) ∧
       (∀ k, k ∈ dom (graph t) ↔ graph t !!! k ≠ []).
Proof.
  apply (placeholder_head_no_edges multiword_block).
  apply (bool_decide_unpack _). vm_compute. exact I.
Defined.

Example multiword_graph_keys :
  ∃ t, conllu2graph multiword_block = Ok t ∧
       dom (graph t) = list_to_set (map str_of_string ["0"; "1"; "2"]) ∧
       graph t !! str_of_string "1-2" = None.
Proof. eexists. split; [reflexivity|]. split; by vm_compute. Qed.

(** ** Edge symmetry *)

#[global] Instance UDNode_eq_dec : EqDecision UDNode.
Proof. solve_decision. Defined.

Lemma NoDup_map_elem_inj {A B} (f : A → B) (l : list A) x y :
  NoDup (map f l) → x ∈ l → y ∈ l → f x = f y → x = y.
Proof.
  induction l as [|a l IH]; cbn; intros Hnd Hx Hy Hf.
  - by apply elem_of_nil in Hx.
  - apply NoDup_cons in Hnd as [Ha Hnd].
    apply elem_of_cons in Hx as [->|Hx], Hy as [->|Hy]; [done| | |by apply IH].
    + destruct Ha. rewrite Hf. apply list_elem_of_In, in_map.
      by apply list_elem_of_In.
    + destruct Ha. rewrite <- Hf. apply list_elem_of_In, in_map.
      by apply list_elem_of_In.
Qed.

Lemma concat_map_nil {A B} (f : A → list B) (l : list A) :
  (∀ x, x ∈ l → f x = []) → concat (map f l) = [].
Proof.
  induction l as [|a l IH]; intros H; [done|]. cbn.
  rewrite (H a) by left. apply IH. intros x Hx. apply H. by right.
Qed.

(** A list of lists where one element gives [[y]] and the others nothing. *)
Lemma concat_map_single {A B} (f : A → list B) (l : list A) x y :
  NoDup l → x ∈ l → f x = [y] →
  (∀ x', x' ∈ l → x' ≠ x → f x' = []) →
  concat (map f l) = [y].
Proof.
  induction l as [|a l IH]; cbn; intros Hnd Hx Hfx Hf.
  - by apply elem_of_nil in Hx.
  - apply NoDup_cons in Hnd as [Ha Hnd].
    apply elem_of_cons in Hx as [->|Hx].
    + rewrite Hfx, concat_map_nil; [done|].
      intros x' Hx'. apply Hf; [by right|]. by intros ->.
    + rewrite (Hf a); [|by left|by intros ->]. cbn.
      apply IH; try done. intros x' Hx'. apply Hf. by right.
Qed.

Lemma filter_concat_map {A B} (P : B → Prop) `{!∀ b, Decision (P b)}
    (f : A → list B) (l : list A) :
  filter P (concat (map f l)) = concat (map (λ x, filter P (f x)) l).
Proof.
  induction l as [|a l IH]; [done|]. cbn. by rewrite filter_app, IH.
Qed.

Lemma up_edge_ne_down_edge n n' : up_edge n ≠ down_edge n'.
Proof. unfold up_edge, down_edge. intros [= _ _]. Qed.

Lemma filter_eq_single {A} `{!EqDecision A} (x : A) :
  filter (λ e, e = x) [x] = [x].
Proof. by rewrite filter_cons_True. Qed.

Lemma filter_eq_other {A} `{!EqDecision A} (x y : A) :
  y ≠ x → filter (λ e, e = x) [y] = [].
Proof. intros. by rewrite filter_cons_False. Qed.

Lemma up_edge_once ns n :
  NoDup (map ID ns) → n ∈ ns → HEAD n ≠ str_underscore →
  filter (λ e, e = up_edge n) (concat (map (edges_at (ID n)) ns))
    = [up_edge n].
Proof.
  intros Hnd Hin Hhead. rewrite filter_concat_map.
  apply (concat_map_single _ _ n); [by eapply NoDup_fmap_1|done|..].
  - unfold edges_at. rewrite bool_decide_eq_false_2 by done.
    rewrite bool_decide_eq_true_2 by done. rewrite filter_app.
    rewrite filter_eq_single. case_bool_decide; [|done].
    rewrite filter_eq_other; [done|]. by intros ?%symmetry%up_edge_ne_down_edge.
  - intros n' Hin' Hne. unfold edges_at. case_bool_decide; [done|].
    rewrite (bool_decide_eq_false_2 (ID n' = ID n)).
    2:{ intros Hid. by apply Hne, (NoDup_map_elem_inj ID ns). }
    cbn [app]. case_bool_decide; [|done].
    rewrite filter_eq_other; [done|]. by intros ?%symmetry%up_edge_ne_down_edge.
Qed.

Lemma down_edge_once ns n :
  NoDup (map ID ns) → n ∈ ns → HEAD n ≠ str_underscore →
  filter (λ e, e = down_edge n) (concat (map (edges_at (HEAD n)) ns))
    = [down_edge n].
Proof.
  intros Hnd Hin Hhead. rewrite filter_concat_map.
  apply (concat_map_single _ _ n); [by eapply NoDup_fmap_1|done|..].
  - unfold edges_at. rewrite bool_decide_eq_false_2 by done.
    rewrite (bool_decide_eq_true_2 (HEAD n = HEAD n)) by done.
    rewrite filter_app, filter_eq_single. case_bool_decide; [|done].
    rewrite filter_eq_other; [done|]. apply up_edge_ne_down_edge.
  - intros n' Hin' Hne. unfold edges_at. case_bool_decide; [done|].
    rewrite filter_app.
    assert (down_edge n' ≠ down_edge n) as Hd.
    { unfold down_edge. intros [= Hid _].
      by apply Hne, (NoDup_map_elem_inj ID ns). }
    repeat case_bool_decide;
      rewrite ?filter_eq_other; try done; apply up_edge_ne_down_edge.
Qed.

(** C2. On a well-formed block whose IDs are pairwise distinct, for each
    node [n] with a head, the list of edges at the key of [n] holds the
    edge (head of [n], relation of [n], up) exactly once, and the list
    at the head of [n] holds the edge (key of [n], relation of [n],
    down) exactly once. *)
Theorem edge_symmetry (record : str) (n : UDNode) :
  block_well_formed record →
  NoDup (map line_ID (node_lines (splitlines record))) →
  n ∈ block_nodes record →
  HEAD n ≠ str_underscore →
  ∃ t, conllu2graph record = Ok t ∧
       filter (λ e, e = mkUDEdge (HEAD n) (DEPREL n) str_up)
              (graph t !!! ID n)
         = [mkUDEdge (HEAD n) (DEPREL n) str_up] ∧
       filter (λ e, e = mkUDEdge (ID n) (DEPREL n) str_down)
              (graph t !!! HEAD n)
         = [mkUDEdge (ID n) (DEPREL n) str_down].
Proof.
  intros Hwf Hnd Hin Hhead. rewrite <- block_nodes_ID in Hnd by done.
  eexists. split; [by apply conllu2graph_Ok|]. cbn.
  rewrite !foldl_add_node_edges_lookup_total, !lookup_total_empty.
  cbn [app]. split.
  - by apply up_edge_once.
  - by apply down_edge_once.
Qed.

Definition node_cat : UDNode :=
  mkUDNode (str_of_string "2") (str_of_string "cat") (str_of_string "cat")
           (str_of_string "NOUN") (str_of_string "_") (str_of_string "_")
           (str_of_string "3") (str_of_string "nsubj") (str_of_string "_")
           (str_of_string "_").

Lemma edge_symmetry_witness :
  ∃ t, conllu2graph example_block = Ok t ∧
       filter (λ e, e = mkUDEdge (HEAD node_cat) (DEPREL node_cat) str_up)
              (graph t !!! ID node_cat)
         = [mkUDEdge (HEAD node_cat) (DEPREL node_cat) str_up] ∧
       filter (λ e, e = mkUDEdge (ID node_cat) (DEPREL node_cat) str_down)
              (graph t !!! HEAD node_cat)
         = [mkUDEdge (ID node_cat) (DEPREL node_cat) str_down].
Proof.
  apply (edge_symmetry example_block node_cat).
  - apply (bool_decide_unpack _). vm_compute. exact I.
  - apply (bool_decide_unpack _). vm_compute. exact I.
  - apply (bool_decide_unpack _). vm_compute. exact I.
  - apply (bool_decide_unpack _). vm_compute. exact I.
Defined.

(** ** Children and the root *)

Lemma graph_getitem_fst g k : (graph_getitem g k).1 = g !!! k.
Proof.
  unfold graph_getitem. rewrite lookup_total_alt. by destruct (g !! k).
Qed.

Lemma graph_getitem_snd g k :
  (graph_getitem g k).2 = match g !! k with Some _ => g | None => <[k:=[]]> g end.
Proof. unfold graph_getitem. by destruct (g !! k). Qed.

Lemma get_node_children_fst t k :
  (get_node_children t k).1 =
    map head (filter (λ el, directionality el = str_down) (graph t !!! k)).
Proof.
  unfold get_node_children. rewrite <- graph_getitem_fst.
  by destruct (graph_getitem (graph t) k).
Qed.

Lemma get_node_children_snd t k :
  (get_node_children t k).2 =
    mkUDTree (id_lines t) (keys t) (nodes t) (graph_getitem (graph t) k).2.
Proof. unfold get_node_children. by destruct (graph_getitem (graph t) k). Qed.

Lemma children_of_edges ns k :
  map head (filter (λ el, directionality el = str_down)
                   (concat (map (edges_at k) ns))) =
  map ID (filter (λ n, HEAD n ≠ str_underscore ∧ HEAD n = k) ns).
Proof.
  induction ns as [|n ns IH]; [done|]. cbn [map concat].
  rewrite filter_app, map_app, IH. unfold edges_at.
  destruct (decide (HEAD n = str_underscore)) as [Hu|Hu].
  - rewrite bool_decide_eq_true_2 by done.
    by rewrite filter_cons_False by naive_solver.
  - rewrite bool_decide_eq_false_2 by done.
    destruct (decide (HEAD n = k)) as [Hk|Hk].
    + rewrite (bool_decide_eq_true_2 (HEAD n = k)) by done.
      rewrite (filter_cons_True _ n) by done.
      by case_bool_decide.
    + rewrite (bool_decide_eq_false_2 (HEAD n = k)) by done.
      rewrite (filter_cons_False _ n) by naive_solver.
      by case_bool_decide.
Qed.

(** C6. [get_node_children] returns the heads of the edges of
    [graph[k]] whose directionality is "down", in the order of that
    list; a key that the graph does not bind gives the empty list, the
    graph being a [defaultdict], and the call cannot raise. On a tree
    built from a well-formed block that order is the order of the
    lines: the children of [k] are the keys of the nodes whose head is
    [k], line after line. *)
Theorem children_in_insertion_order :
  (∀ t k, (get_node_children t k).1 =
            map head (filter (λ el, directionality el = str_down)
                             (default [] (graph t !! k)))) ∧
  (∀ t k, graph t !! k = None → (get_node_children t k).1 = []) ∧
  (∀ record, block_well_formed record →
     ∃ t, conllu2graph record = Ok t ∧
          ∀ k, (get_node_children t k).1 =
                 map ID (filter (λ n, HEAD n ≠ str_underscore ∧ HEAD n = k)
                                (block_nodes record))).
Proof.
  split; [|split].
  - intros t k. by rewrite get_node_children_fst, lookup_total_alt.
  - intros t k Hk. by rewrite get_node_children_fst, lookup_total_alt, Hk.
  - intros record Hwf. eexists. split; [by apply conllu2graph_Ok|].
    intros k. rewrite get_node_children_fst. cbn [graph].
    rewrite foldl_add_node_edges_lookup_total, lookup_total_empty.
    apply children_of_edges.
Qed.

Definition two_children_block : str :=
  join [LF]
    [row ["1"; "b"; "b"; "X"; "_"; "_"; "3"; "dep"; "_"; "_"];
     row ["2"; "a"; "a"; "X"; "_"; "_"; "3"; "dep"; "_"; "_"];
     row ["3"; "c"; "c"; "X"; "_"; "_"; "0"; "root"; "_"; "_"]].

Lemma children_in_insertion_order_witness :
  ∃ t, conllu2graph two_children_block = Ok t ∧
       (get_node_children t (str_of_string "3")).1 =
         map str_of_string ["1"; "2"] ∧
       (get_node_children t (str_of_string "7")).1 = [].
Proof.
  destruct children_in_insertion_order as (_ & Habsent & Hbuilt).
  destruct (Hbuilt two_children_block) as (t & Ht & Hch).
  { apply (bool_decide_unpack _). vm_compute. exact I. }
  exists t. split; [exact Ht|]. split.
  - rewrite Hch. vm_compute. reflexivity.
  - rewrite Hch. vm_compute. reflexivity.
Defined.

(** The virtual root has no child in the tree. *)
Definition no_root_child (t : UDTree) : Prop :=
  ∀ e, e ∈ default [] (graph t !! str_zero) → directionality e ≠ str_down.

(** C4, as the code has it. When the key "0" has no down-edge in the
    graph, [get_real_root] raises the [IndexError] of indexing an empty
    list; the module has no error of its own for a missing root. When a
    down-edge exists at "0", it returns the first child of "0". *)
Theorem real_root_first_child (t : UDTree) :
  (no_root_child t → (get_real_root t).1 = Raise IndexError) ∧
  (∀ c cs, (get_node_children t str_zero).1 = c :: cs →
           (get_real_root t).1 = Ok c).
Proof.
  unfold get_real_root. split.
  - intros Hno.
    assert ((get_node_children t str_zero).1 = []) as Hch.
    { rewrite get_node_children_fst, lookup_total_alt.
      destruct (filter _ _) as [|e es] eqn:E; [done|].
      assert (e ∈ e :: es) as Hin by left. rewrite <- E in Hin.
      apply list_elem_of_filter in Hin as [Hd Hin]. by apply Hno in Hin. }
    destruct (get_node_children t str_zero) as [ch t']. cbn in *. by subst.
  - intros c cs Hch.
    destruct (get_node_children t str_zero) as [ch t']. cbn in *. by subst.
Qed.

Lemma real_root_first_child_witness :
  (get_real_root (mkUDTree [] [] ∅ ∅)).1 = Raise IndexError.
Proof.
  apply (real_root_first_child (mkUDTree [] [] ∅ ∅)).
  intros e He. vm_compute in He. by apply elem_of_nil in He.
Defined.

(** A tree without a root: the fault is the index fault, not an error
    that names the missing root. *)
Lemma real_root_index_fault :
  no_root_child (mkUDTree [] [] ∅ ∅) ∧
  (get_real_root (mkUDTree [] [] ∅ ∅)).1 = Raise IndexError.
Proof.
  split; [|reflexivity].
  intros e He. vm_compute in He. by apply elem_of_nil in He.
Qed.

Example real_root_example :
  ∃ t, conllu2graph example_block = Ok t ∧
       (get_real_root t).1 = Ok (str_of_string "3") ∧
       (get_node_children t (str_of_string "3")).1 = [str_of_string "2"].
Proof. eexists. split; [reflexivity|]. split; by vm_compute. Qed.

(** ** What the queries change *)

(** [UDTree.__str__] and [get_sentence] only read [id_lines], [keys] and
    [nodes], a plain dictionary: they are functions of the tree.
    [get_node_children] and [get_real_root] read the graph through the
    [defaultdict] and return the tree after the call. *)

Lemma get_real_root_snd t :
  (get_real_root t).2 = (get_node_children t str_zero).2.
Proof. unfold get_real_root. by destruct (get_node_children t str_zero). Qed.

(** C9, the claim fails: on a tree whose graph does not bind the key
    "7", asking for its children binds it. *)
Lemma children_binds_absent_key :
  let t := mkUDTree [] [] ∅ ∅ in
  let k := str_of_string "7" in
  graph t !! k = None ∧
  dom (graph (get_node_children t k).2) ≠ dom (graph t).
Proof.
  split; [reflexivity|]. vm_compute. intros [=].
Qed.

(** C9, as the code has it. [get_node_children] leaves [id_lines], [keys]
    and [nodes] as they are, and the list of edges of every key as it is;
    when the key is bound the graph is unchanged, and when it is not the
    graph binds it to the empty list, so the keys of the graph are the
    old ones and that key. [get_real_root] does the same with the key
    "0", also when it raises. *)
Theorem queries_frame (t : UDTree) (k : str) :
  let t' := (get_node_children t k).2 in
  id_lines t' = id_lines t ∧ keys t' = keys t ∧ nodes t' = nodes t ∧
  (∀ k', graph t' !!! k' = graph t !!! k') ∧
  (is_Some (graph t !! k) → graph t' = graph t) ∧
  (graph t !! k = None → graph t' = <[k := []]> (graph t)) ∧
  dom (graph t') = {[k]} ∪ dom (graph t) ∧
  (get_real_root t).2 = (get_node_children t str_zero).2.
Proof.
  cbn zeta. rewrite get_node_children_snd, get_real_root_snd. cbn.
  rewrite graph_getitem_snd.
  repeat split.
  - intros k'. destruct (graph t !! k) eqn:E; [done|].
    rewrite !lookup_total_alt.
    destruct (decide (k = k')) as [<-|Hne].
    + by rewrite lookup_insert_eq, E.
    + by rewrite lookup_insert_ne.
  - by intros [es ->].
  - by intros ->.
  - destruct (graph t !! k) eqn:E.
    + apply elem_of_dom_2 in E. set_solver.
    + by rewrite dom_insert_L.
Qed.

Lemma queries_frame_witness :
  let t := mkUDTree [] [] ∅ ∅ in
  let k := str_of_string "7" in
  graph (get_node_children t k).2 = <[k := []]> (graph t).
Proof.
  intros t k. apply (queries_frame t k). reflexivity.
Defined.

(** ** Sentence *)

Lemma mapM_Forall2 {A B} (f : A → result B) (l : list A) (l' : list B) :
  Forall2 (λ x y, f x = Ok y) l l' → mapM f l = Ok l'.
Proof.
  induction 1 as [|x y l l' Hxy _ IH]; [done|]. cbn.
  by rewrite Hxy, IH.
Qed.

Lemma keys_have_nodes (t : UDTree) :
  Forall (λ k, is_Some (nodes t !! k)) (keys t) →
  ∃ ns, Forall2 (λ k n, nodes t !! k = Some n) (keys t) ns.
Proof.
  induction 1 as [|k ks [n Hn] _ [ns IH]].
  - exists []. constructor.
  - exists (n :: ns). by constructor.
Qed.

(** C7. For a tree whose keys all have a node, [get_sentence] returns the
    FORM of [nodes[k]] for each [k] of [keys], in that order and none left
    out, each lowercased, joined by single spaces. *)
Theorem sentence_forms (lower : str → str) (t : UDTree) :
  Forall (λ k, is_Some (nodes t !! k)) (keys t) →
  ∃ ns, Forall2 (λ k n, nodes t !! k = Some n) (keys t) ns ∧
        get_sentence lower t =
          Ok (join [SPACE] (map (λ n, lower (FORM n)) ns)).
Proof.
  intros [ns Hns]%keys_have_nodes. exists ns. split; [done|].
  unfold get_sentence.
  rewrite (mapM_Forall2 _ _ (map (λ n, lower (FORM n)) ns)); [done|].
  induction Hns as [|k n ks ns Hk _ IH]; cbn; constructor; [|done].
  unfold dict_getitem. by rewrite Hk.
Qed.

(** Every tree the builder returns binds its keys. *)
Lemma conllu2graph_keys_have_nodes record t :
  conllu2graph record = Ok t →
  Forall (λ k, is_Some (nodes t !! k)) (keys t).
Proof.
  intros Ht. destruct (decide (well_formed (splitlines record))) as [Hwf|Hwf].
  - apply block_well_formed_lines in Hwf.
    rewrite conllu2graph_Ok in Ht by done. injection Ht as <-. cbn.
    apply Forall_forall. intros k Hk. apply foldl_add_node_lookup. by right.
  - unfold conllu2graph in Ht.
    by rewrite conllu2graph_loop_malformed in Ht.
Qed.

(** Lower-casing of the ASCII letters, for the examples. *)
Definition ascii_lower (s : str) : str :=
  map (λ c : N, if (65 <=? c)%N && (c <=? 90)%N then (c + 32)%N else c) s.

Definition multiword_tree : UDTree :=
  match conllu2graph multiword_block with
  | Ok t => t
  | Raise _ => mkUDTree [] [] ∅ ∅
  end.

Lemma sentence_forms_witness :
  ∃ ns, Forall2 (λ k n, nodes multiword_tree !! k = Some n)
                (keys multiword_tree) ns ∧
        get_sentence ascii_lower multiword_tree =
          Ok (join [SPACE] (map (λ n, ascii_lower (FORM n)) ns)).
Proof.
  apply (sentence_forms ascii_lower multiword_tree).
  apply (bool_decide_unpack _). vm_compute. exact I.
Defined.

Example sentence_multiword :
  get_sentence ascii_lower multiword_tree = Ok (str_of_string "del de el").
Proof. by vm_compute. Qed.

Example sentence_example :
  ∃ t, conllu2graph example_block = Ok t ∧
       get_sentence ascii_lower t = Ok (str_of_string "the cat sleeps").
Proof. eexists. split; [reflexivity|]. by vm_compute. Qed.

(** ** Round trip *)

Lemma clean_join_TAB fs : Forall clean_line fs → clean_line (join [TAB] fs).
Proof.
  induction 1 as [|x fs Hx Hfs IH]; [constructor|].
  destruct fs as [|y fs]; [done|].
  change (join [TAB] (x :: y :: fs)) with (x ++ TAB :: join [TAB] (y :: fs)).
  apply Forall_app. split; [done|]. by constructor.
Qed.

Lemma filter_lines_app cs rows :
  Forall is_comment cs → Forall (λ l, ¬ is_comment l) rows →
  comment_lines (cs ++ rows) = cs ∧ node_lines (cs ++ rows) = rows.
Proof.
  intros [Hc1 Hc2]%comment_lines_all Hrows.
  unfold comment_lines, node_lines in *. rewrite !filter_app, Hc1, Hc2.
  cbn [app]. split.
  - rewrite <- (app_nil_r cs) at 2. f_equal.
    induction Hrows as [|l rows Hl _ IH]; [done|].
    rewrite filter_cons_False by naive_solver. done.
  - induction Hrows as [|l rows Hl _ IH]; [done|].
    rewrite filter_cons_True by done. by rewrite IH.
Qed.

Lemma mapM_map_Ok {A B C} (f : B → result C) (g : A → B) (h : A → C) l :
  (∀ x, x ∈ l → f (g x) = Ok (h x)) → mapM f (map g l) = Ok (map h l).
Proof.
  induction l as [|a l IH]; intros H; [done|]. cbn.
  rewrite (H a) by left. cbn. rewrite IH; [done|].
  intros x Hx. apply H. by right.
Qed.

(** The rows of a block: ten fields each, no tab and no line boundary in a
    field, and the row is not read as a comment. *)
Definition valid_row (fs : list str) : Prop :=
  length fs = 10 ∧ Forall (λ f, (TAB ∉ f) ∧ clean_line f) fs ∧
  ¬ is_comment (join [TAB] fs).

Definition valid_comment (c : str) : Prop := is_comment c ∧ clean_line c.

Definition row_ID (fs : list str) : str := default [] (fs !! 0).

Lemma valid_row_line fs :
  valid_row fs →
  clean_line (join [TAB] fs) ∧ join [TAB] fs ≠ [] ∧
  line_fields (join [TAB] fs) = fs.
Proof.
  intros (Hlen & Hfs & _).
  assert (clean_line (join [TAB] fs)) as Hclean.
  { apply clean_join_TAB. eapply Forall_impl; [exact Hfs|]. by intros ? []. }
  split; [done|]. split.
  - do 2 (destruct fs as [|? fs]; try discriminate). apply join_not_nil.
  - unfold line_fields. rewrite strip_not_elem by (by apply clean_line_no_LF).
    apply split_join; [by destruct fs|].
    eapply Forall_impl; [exact Hfs|]. by intros ? [].
Qed.

Lemma valid_rows_nodes fss :
  Forall valid_row fss →
  ∃ ns, omap line_node (map (join [TAB]) fss) = ns ∧
        map UDNode_str ns = map (join [TAB]) fss ∧
        map ID ns = map row_ID fss.
Proof.
  induction 1 as [|fs fss Hfs _ (ns & Hns & Hstr & Hid)].
  - by exists [].
  - destruct (valid_row_line fs Hfs) as (_ & _ & Hf).
    destruct Hfs as (Hlen & _ & _).
    destruct (UDNode_of_fields_length fs Hlen) as (n & Hn & Hnf).
    subst fs. exists (n :: ns). cbn [map omap list_omap].
    rewrite Hns. unfold line_node at 1. rewrite Hf, Hn, Hstr, Hid. done.
Qed.

(** C1, as the code has it. For a block of comment lines followed by rows
    of ten fields, joined by single newlines, where no field holds a tab,
    no field and no comment holds a line boundary of [splitlines]
    (newline, carriage return and the others), and the IDs of the rows
    are pairwise distinct, the builder returns a tree that renders as the
    block. *)
Theorem round_trip (cs : list str) (fss : list (list str)) :
  Forall valid_comment cs →
  Forall valid_row fss →
  NoDup (map row_ID fss) →
  ∃ t, conllu2graph (join [LF] (cs ++ map (join [TAB]) fss)) = Ok t ∧
       UDTree_str t = Ok (join [LF] (cs ++ map (join [TAB]) fss)).
Proof.
  intros Hcs Hfss Hnd.
  set (rows := map (join [TAB]) fss).
  assert (splitlines (join [LF] (cs ++ rows)) = cs ++ rows) as Hlines.
  { apply splitlines_join, Forall_app. split.
    - eapply Forall_impl; [exact Hcs|]. intros c [Hc Hclean].
      split; [done|]. by destruct c.
    - apply Forall_map. eapply Forall_impl; [exact Hfss|].
      intros fs Hfs. cbn. by destruct (valid_row_line fs Hfs) as (? & ? & _). }
  destruct (filter_lines_app cs rows) as [Hcl Hnl].
  { eapply Forall_impl; [exact Hcs|]. by intros ? []. }
  { apply Forall_map. eapply Forall_impl; [exact Hfss|]. by intros ? (_ & _ & ?). }
  destruct (valid_rows_nodes fss Hfss) as (ns & Hns & Hstr & Hid).
  fold rows in Hns, Hstr.
  assert (well_formed (cs ++ rows)) as Hwf.
  { unfold well_formed. rewrite Hnl. apply Forall_map.
    eapply Forall_impl; [exact Hfss|]. intros fs Hfs. cbn.
    destruct (valid_row_line fs Hfs) as (_ & _ & ->). by destruct Hfs. }
  eexists. split.
  { unfold conllu2graph. rewrite Hlines. by apply conllu2graph_loop_Ok. }
  unfold UDTree_str, lines_nodes. cbn. rewrite Hcl, Hnl, Hns.
  rewrite (mapM_map_Ok _ ID UDNode_str).
  - cbn. by rewrite Hstr.
  - intros n Hn. unfold dict_getitem.
    rewrite foldl_add_node_NoDup; [done| |done]. by rewrite Hid.
Qed.

Definition example_comments : list str := [str_of_string "# sent_id = ex1"].

Definition example_rows : list (list str) :=
  map (map str_of_string)
    [["1"; "The"; "the"; "DET"; "_"; "_"; "2"; "det"; "_"; "_"];
     ["2"; "cat"; "cat"; "NOUN"; "_"; "_"; "3"; "nsubj"; "_"; "_"];
     ["3"; "sleeps"; "sleep"; "VERB"; "_"; "_"; "0"; "root"; "_"; "_"]].

Lemma round_trip_witness :
  ∃ t, conllu2graph
         (join [LF] (example_comments ++ map (join [TAB]) example_rows))
         = Ok t ∧
       UDTree_str t =
         Ok (join [LF] (example_comments ++ map (join [TAB]) example_rows)).
Proof.
  apply (round_trip example_comments example_rows).
  - unfold valid_comment, clean_line.
    apply (bool_decide_unpack _). vm_compute. exact I.
  - unfold valid_row, clean_line.
    apply (bool_decide_unpack _). vm_compute. exact I.
  - apply (bool_decide_unpack _). vm_compute. exact I.
Defined.

Example round_trip_example :
  join [LF] (example_comments ++ map (join [TAB]) example_rows)
    = example_block.
Proof. reflexivity. Qed.

(** The conditions of C1 as it is written: comment lines first, ten
    fields in a row, no tab and no newline inside a field. *)
Definition stated_valid_row (fs : list str) : Prop :=
  length fs = 10 ∧ Forall (λ f, (TAB ∉ f) ∧ (LF ∉ f)) fs ∧
  ¬ is_comment (join [TAB] fs).

Definition stated_valid_comment (c : str) : Prop := is_comment c ∧ LF ∉ c.

(** Two rows with the same ID. *)
Definition repeated_id_rows : list (list str) :=
  map (map str_of_string)
    [["1"; "a"; "a"; "X"; "_"; "_"; "0"; "root"; "_"; "_"];
     ["1"; "b"; "b"; "X"; "_"; "_"; "1"; "dep"; "_"; "_"]].

Definition repeated_id_block : str :=
  join [LF] (map (join [TAB]) repeated_id_rows).

(** C1, the claim fails: the block of two rows with the ID "1" is valid
    as the claim has it, and the tree renders the second row twice. *)
Lemma round_trip_repeated_id :
  Forall stated_valid_row repeated_id_rows ∧
  ∃ t, conllu2graph repeated_id_block = Ok t ∧
       UDTree_str t =
         Ok (join [LF] (map (join [TAB])
               (map (map str_of_string)
                  [["1"; "b"; "b"; "X"; "_"; "_"; "1"; "dep"; "_"; "_"];
                   ["1"; "b"; "b"; "X"; "_"; "_"; "1"; "dep"; "_"; "_"]]))) ∧
       UDTree_str t ≠ Ok repeated_id_block.
Proof.
  split.
  - unfold stated_valid_row.
    apply (bool_decide_unpack _). vm_compute. exact I.
  - eexists. split; [reflexivity|]. split; [by vm_compute|].
    vm_compute. intros [=].
Qed.

(** A carriage return inside a field ends the line for [splitlines]: the
    row is read as two lines, neither of ten fields. *)
Definition carriage_return_rows : list (list str) :=
  [[str_of_string "1"; str_of_string "a" ++ [CR] ++ str_of_string "b";
    str_of_string "a"; str_of_string "X"; str_of_string "_";
    str_of_string "_"; str_of_string "0"; str_of_string "root";
    str_of_string "_"; str_of_string "_"]].

Example round_trip_carriage_return :
  Forall stated_valid_row carriage_return_rows ∧
  conllu2graph (join [LF] (map (join [TAB]) carriage_return_rows))
    = Raise AssertionError.
Proof.
  split.
  - unfold stated_valid_row.
    apply (bool_decide_unpack _). vm_compute. exact I.
  - by vm_compute.
Qed.

(** * The rest of the module *)

(** ** [conllu2trees]

    The function reads the file at [path] and works on the text it read:
    [txt] below is the value of [inp.read()]. *)

(** The characters [str.isspace] accepts, which [str.strip()] removes. *)
Definition is_space (c : char) : bool :=
  ((9 <=? c)%N && (c <=? 13)%N) || ((28 <=? c)%N && (c <=? 32)%N) ||
  (c =? 133)%N || (c =? 160)%N || (c =? 5760)%N ||
  ((8192 <=? c)%N && (c <=? 8202)%N) || (c =? 8232)%N || (c =? 8233)%N ||
  (c =? 8239)%N || (c =? 8287)%N || (c =? 12288)%N.

Fixpoint lstrip_space (s : str) : str :=
  match s with
  | [] => []
  | x :: rest => if is_space x then lstrip_space rest else s
  end.

(** [s.strip()]. *)
Definition strip_space (s : str) : str :=
  reverse (lstrip_space (reverse (lstrip_space s))).

(** [s.split("\n\n")]: the text is cut at each pair of newlines, read from
    the left; [cur] is the block read so far. *)
Fixpoint split_blank_from (cur : str) (s : str) : list str :=
  match s with
  | [] => [cur]
  | c :: rest =>
      match rest with
      | c2 :: rest' =>
          if (c =? LF)%N && (c2 =? LF)%N
          then cur :: split_blank_from [] rest'
          else split_blank_from (cur ++ [c]) rest
      | [] => split_blank_from (cur ++ [c]) rest
      end
  end.

Definition split_blank (s : str) : list str := split_blank_from [] s.

(** The list comprehension builds the trees from the left and stops at the
    first block that raises. *)
Definition conllu2trees (txt : str) : result (list UDTree) :=
  let blocks := split_blank (strip_space txt) in
  mapM conllu2graph blocks.

(** ** Rows and nodes *)

Lemma split_from_not_nil sep cur s : split_from sep cur s ≠ [].
Proof.
  revert cur. induction s as [|c s IH]; intros cur; cbn; [done|].
  by destruct (c =? sep)%N.
Qed.

Lemma join_cons sep x l :
  l ≠ [] → join [sep] (x :: l) = x ++ sep :: join [sep] l.
Proof. by destruct l. Qed.

Lemma join_split_from sep s : ∀ cur,
  join [sep] (split_from sep cur s) = cur ++ s.
Proof.
  induction s as [|c s IH]; intros cur; cbn [split_from].
  - cbn. by rewrite app_nil_r.
  - destruct (N.eqb_spec c sep) as [->|_].
    + rewrite join_cons by apply split_from_not_nil. by rewrite IH.
    + rewrite IH. by rewrite <- app_assoc.
Qed.

(** Joining what [split] returns gives the string back. *)
Lemma join_split sep s : join [sep] (split sep s) = s.
Proof. apply join_split_from. Qed.


(** Rendering a node and reading the row back. *)

(** X1. A row read as a node renders as the row, whatever its fields hold. *)
Theorem node_renders_as_row (line : str) (n : UDNode) :
  UDNode_of_fields (split TAB line) = Ok n → UDNode_str n = line.
Proof.
  intros Hn%UDNode_of_fields_Ok. unfold UDNode_str. rewrite Hn.
  apply join_split.
Qed.

Lemma node_renders_as_row_witness :
  UDNode_str node_cat =
    row ["2"; "cat"; "cat"; "NOUN"; "_"; "_"; "3"; "nsubj"; "_"; "_"].
Proof.
  apply (node_renders_as_row
           (row ["2"; "cat"; "cat"; "NOUN"; "_"; "_"; "3"; "nsubj"; "_"; "_"])
           node_cat).
  vm_compute. reflexivity.
Defined.

(** X2. A node whose fields hold no tab is read back from its rendering. *)
Theorem node_read_back (n : UDNode) :
  Forall (λ f, TAB ∉ f) (UDNode_fields n) →
  UDNode_of_fields (split TAB (UDNode_str n)) = Ok n.
Proof.
  intros Hn. unfold UDNode_str. rewrite split_join by done.
  apply UDNode_of_fields_fields.
Qed.

Lemma node_read_back_witness :
  UDNode_of_fields (split TAB (UDNode_str node_cat)) = Ok node_cat.
Proof.
  apply (node_read_back node_cat).
  apply (bool_decide_unpack _). vm_compute. exact I.
Defined.

(** A node with a tab inside a field renders as a row of eleven fields. *)
Definition node_with_tab : UDNode :=
  mkUDNode (str_of_string "1") (str_of_string "a" ++ [TAB] ++ str_of_string "b")
           (str_of_string "a") (str_of_string "X") (str_of_string "_")
           (str_of_string "_") (str_of_string "0") (str_of_string "root")
           (str_of_string "_") (str_of_string "_").

Example node_with_tab_not_read_back :
  UDNode_of_fields (split TAB (UDNode_str node_with_tab)) = Raise TypeError ∧
  conllu2graph (UDNode_str node_with_tab) = Raise AssertionError.
Proof. split; by vm_compute. Qed.

(** ** What the builder raises *)

#[global] Instance block_well_formed_dec record :
  Decision (block_well_formed record).
Proof. unfold block_well_formed. apply _. Defined.

Lemma conllu2graph_cases record :
  (block_well_formed record ∧ ∃ t, conllu2graph record = Ok t) ∨
  (¬ block_well_formed record ∧ conllu2graph record = Raise AssertionError).
Proof.
  destruct (decide (block_well_formed record)) as [Hwf|Hwf].
  - left. split; [done|]. eexists. by apply conllu2graph_Ok.
  - right. split; [done|]. apply conllu2graph_loop_malformed.
    by rewrite <- block_well_formed_lines.
Qed.

(** X3. The builder returns on the well-formed blocks and on no other; on the
    others it raises [AssertionError]. The [TypeError] of the [UDNode]
    constructor, the [IndexError] of [fields[0]] and [KeyError] are never
    raised. *)
Theorem builder_raises_only_assertion (record : str) :
  (block_well_formed record ∧ ∃ t, conllu2graph record = Ok t) ∨
  (¬ block_well_formed record ∧ conllu2graph record = Raise AssertionError).
Proof. apply conllu2graph_cases. Qed.

Lemma empty_line_malformed record :
  [] ∈ splitlines record → ¬ block_well_formed record.
Proof.
  intros Hin Hwf. unfold block_well_formed in Hwf.
  eapply Forall_forall in Hwf.
  2:{ unfold node_lines. apply list_elem_of_filter. split; [|exact Hin]. done. }
  discriminate.
Qed.

(** X4. An empty line inside a block is not skipped: it is read as a row of
    one field, and the builder raises. *)
Theorem empty_line_rejected (record : str) :
  [] ∈ splitlines record → conllu2graph record = Raise AssertionError.
Proof.
  intros Hin%empty_line_malformed.
  by destruct (conllu2graph_cases record) as [[? _]|[_ ?]].
Qed.

Lemma empty_line_rejected_witness :
  conllu2graph (example_block ++ [LF; LF] ++ example_block)
    = Raise AssertionError.
Proof.
  apply (empty_line_rejected (example_block ++ [LF; LF] ++ example_block)).
  apply (bool_decide_unpack _). vm_compute. exact I.
Defined.

(** ** The [nodes] dictionary *)

Lemma foldl_add_node_last ns k : ∀ m,
  foldl add_node m ns !! k =
    match last (filter (λ n, ID n = k) ns) with
    | Some n => Some n
    | None => m !! k
    end.
Proof.
  induction ns as [|n ns IH]; intros m; [done|]. cbn [foldl].
  rewrite IH. unfold add_node.
  destruct (decide (ID n = k)) as [Hk|Hk].
  - rewrite filter_cons_True by done. rewrite last_cons.
    destruct (last (filter _ ns)); [done|].
    by rewrite <- Hk, lookup_insert_eq.
  - rewrite filter_cons_False by done.
    by rewrite lookup_insert_ne.
Qed.

Lemma foldl_add_node_dom ns : ∀ m,
  dom (foldl add_node m ns) = dom m ∪ list_to_set (map ID ns).
Proof.
  induction ns as [|n ns IH]; intros m; cbn.
  - set_solver.
  - rewrite IH. unfold add_node. rewrite dom_insert_L. set_solver.
Qed.

(** X5. On a well-formed block, [nodes[k]] is the node of the last row whose
    ID is [k] (an ID that repeats keeps its last row only), and the keys
    of [nodes] are the entries of [keys]. *)
Theorem nodes_last_row_wins (record : str) :
  block_well_formed record →
  ∃ t, conllu2graph record = Ok t ∧
       (∀ k, nodes t !! k = last (filter (λ n, ID n = k) (block_nodes record))) ∧
       dom (nodes t) = list_to_set (keys t).
Proof.
  intros Hwf. eexists. split; [by apply conllu2graph_Ok|]. cbn. split.
  - intros k. rewrite foldl_add_node_last, lookup_empty.
    by destruct (last _).
  - rewrite foldl_add_node_dom. set_solver.
Qed.

Lemma nodes_last_row_wins_witness :
  ∃ t, conllu2graph repeated_id_block = Ok t ∧
       (∀ k, nodes t !! k =
               last (filter (λ n, ID n = k) (block_nodes repeated_id_block))) ∧
       dom (nodes t) = list_to_set (keys t).
Proof.
  apply (nodes_last_row_wins repeated_id_block).
  apply (bool_decide_unpack _). vm_compute. exact I.
Defined.

Lemma size_list_to_set_le (l : list str) :
  size (list_to_set l : gset str) ≤ length l.
Proof.
  induction l as [|x l IH]; cbn.
  - by rewrite size_empty.
  - rewrite size_union_alt, size_singleton.
    assert (size (list_to_set l ∖ {[x]} : gset str) ≤ size (list_to_set l : gset str))
      by (apply subseteq_size; set_solver).
    lia.
Qed.

(** X6. [nodes] never has more entries than [keys], and has as many when the
    IDs of the block are pairwise distinct. *)
Theorem nodes_count (record : str) :
  block_well_formed record →
  ∃ t, conllu2graph record = Ok t ∧
       size (nodes t) ≤ length (keys t) ∧
       (NoDup (map line_ID (node_lines (splitlines record))) →
        size (nodes t) = length (keys t)).
Proof.
  intros Hwf. eexists. split; [by apply conllu2graph_Ok|]. cbn.
  rewrite <- size_dom, foldl_add_node_dom, dom_empty_L, (left_id_L ∅ (∪)).
  split; [apply size_list_to_set_le|].
  intros Hnd. rewrite <- block_nodes_ID in Hnd by done.
  by apply size_list_to_set.
Qed.

Lemma nodes_count_witness :
  ∃ t, conllu2graph repeated_id_block = Ok t ∧
       size (nodes t) ≤ length (keys t) ∧
       (NoDup (map line_ID (node_lines (splitlines repeated_id_block))) →
        size (nodes t) = length (keys t)).
Proof.
  apply (nodes_count repeated_id_block).
  apply (bool_decide_unpack _). vm_compute. exact I.
Defined.

(** ** Rendering built trees *)

Lemma node_line_not_nil l : length (split TAB l) = 10 → l ≠ [].
Proof. by intros Hl ->. Qed.

Lemma comment_not_nil l : is_comment l → l ≠ [].
Proof. by intros Hl ->. Qed.

Lemma omap_line_node_str ls :
  Forall (λ l, length (split TAB l) = 10 ∧ line_fields l = split TAB l) ls →
  map UDNode_str (omap line_node ls) = ls.
Proof.
  induction 1 as [|l ls [Hlen Hf] _ IH]; [done|]. cbn [omap list_omap].
  destruct (line_node_length l) as [n Hn]; [by rewrite Hf|].
  rewrite Hn. cbn [map]. rewrite IH. f_equal.
  apply line_node_Some in Hn. unfold UDNode_str.
  rewrite Hn, Hf. apply join_split.
Qed.

Lemma block_node_lines_fields record :
  block_well_formed record →
  Forall (λ l, length (split TAB l) = 10 ∧ line_fields l = split TAB l)
         (node_lines (splitlines record)).
Proof.
  unfold block_well_formed. rewrite !Forall_forall. intros Hwf l Hl.
  split; [by apply Hwf|].
  apply (line_fields_splitlines record). by apply node_lines_elem_of.
Qed.

Lemma UDTree_str_built cs ns g :
  NoDup (map ID ns) →
  UDTree_str (mkUDTree cs (map ID ns) (foldl add_node ∅ ns) g) =
    Ok (join [LF] (cs ++ map UDNode_str ns)).
Proof.
  intros Hnd. unfold UDTree_str. cbn.
  rewrite (mapM_map_Ok _ ID UDNode_str); [done|].
  intros n Hn. unfold dict_getitem. by rewrite foldl_add_node_NoDup.
Qed.

Lemma conllu2graph_render record :
  block_well_formed record →
  NoDup (map line_ID (node_lines (splitlines record))) →
  ∃ t, conllu2graph record = Ok t ∧
       UDTree_str t =
         Ok (join [LF] (comment_lines (splitlines record) ++
                        node_lines (splitlines record))).
Proof.
  intros Hwf Hnd. rewrite <- block_nodes_ID in Hnd by done.
  eexists. split; [by apply conllu2graph_Ok|].
  rewrite UDTree_str_built by done. unfold block_nodes, lines_nodes.
  by rewrite omap_line_node_str by (by apply block_node_lines_fields).
Qed.

Lemma block_lines_clean record :
  Forall (λ l, clean_line l ∧ l ≠ [])
         (comment_lines (splitlines record) ++ node_lines (splitlines record))
  ∨ ¬ block_well_formed record.
Proof.
  destruct (decide (block_well_formed record)) as [Hwf|Hwf]; [left|by right].
  pose proof (splitlines_clean record) as Hclean.
  rewrite Forall_forall in Hclean.
  apply Forall_app. split; apply Forall_forall; intros l Hl.
  - apply list_elem_of_filter in Hl as [Hc Hl].
    split; [by apply Hclean|by apply comment_not_nil].
  - split; [by apply Hclean, node_lines_elem_of|].
    apply node_line_not_nil.
    unfold block_well_formed in Hwf. rewrite Forall_forall in Hwf.
    by apply Hwf.
Qed.

Lemma splitlines_rendered record :
  block_well_formed record →
  let lines := comment_lines (splitlines record) ++
               node_lines (splitlines record) in
  splitlines (join [LF] lines) = lines ∧
  comment_lines lines = comment_lines (splitlines record) ∧
  node_lines lines = node_lines (splitlines record).
Proof.
  intros Hwf lines. split.
  - apply splitlines_join. by destruct (block_lines_clean record).
  - apply filter_lines_app; apply Forall_forall; intros l Hl.
    + by apply list_elem_of_filter in Hl as [? _].
    + by apply list_elem_of_filter in Hl as [? _].
Qed.

Lemma conllu2graph_rendered record :
  block_well_formed record →
  conllu2graph
    (join [LF] (comment_lines (splitlines record) ++
                node_lines (splitlines record)))
  = conllu2graph record.
Proof.
  intros Hwf. destruct (splitlines_rendered record Hwf) as (Hl & Hc & Hn).
  rewrite (conllu2graph_Ok record) by done.
  unfold conllu2graph. rewrite Hl.
  rewrite conllu2graph_loop_Ok.
  - unfold block_nodes, lines_nodes. by rewrite Hc, Hn.
  - unfold well_formed. rewrite Hn. by apply block_well_formed_lines.
Qed.

(** X7. For a well-formed block with pairwise distinct IDs, however its lines
    end and wherever its comments stand, the tree renders as the comment
    lines followed by the rows, joined by single newlines: line ends
    become "\n", a last line end is dropped, comments move to the front,
    and every line is kept as it was, tabs and fields included. *)
Theorem render_normalises (record : str) :
  block_well_formed record →
  NoDup (map line_ID (node_lines (splitlines record))) →
  ∃ t, conllu2graph record = Ok t ∧
       UDTree_str t =
         Ok (join [LF] (comment_lines (splitlines record) ++
                        node_lines (splitlines record))).
Proof. apply conllu2graph_render. Qed.

(** Rows ended by "\r\n", a comment after the first row, a last newline. *)
Definition crlf_block : str :=
  row ["1"; "The"; "the"; "DET"; "_"; "_"; "2"; "det"; "_"; "_"]
  ++ [CR; LF] ++ str_of_string "# late comment" ++ [CR; LF] ++
  row ["2"; "cat"; "cat"; "NOUN"; "_"; "_"; "0"; "root"; "_"; "_"] ++ [LF].

Lemma render_normalises_witness :
  ∃ t, conllu2graph crlf_block = Ok t ∧
       UDTree_str t =
         Ok (join [LF] (comment_lines (splitlines crlf_block) ++
                        node_lines (splitlines crlf_block))).
Proof.
  apply (render_normalises crlf_block).
  - apply (bool_decide_unpack _). vm_compute. exact I.
  - apply (bool_decide_unpack _). vm_compute. exact I.
Defined.

Example crlf_block_rendered :
  ∃ t, conllu2graph crlf_block = Ok t ∧
       UDTree_str t =
         Ok (join [LF]
               [str_of_string "# late comment";
                row ["1"; "The"; "the"; "DET"; "_"; "_"; "2"; "det"; "_"; "_"];
                row ["2"; "cat"; "cat"; "NOUN"; "_"; "_"; "0"; "root"; "_"; "_"]]).
Proof. eexists. split; [reflexivity|]. by vm_compute. Qed.

(** X8. Building again from the rendering of a built tree gives the same
    tree, for a well-formed block with pairwise distinct IDs. *)
Theorem rebuild_from_rendering (record : str) :
  block_well_formed record →
  NoDup (map line_ID (node_lines (splitlines record))) →
  ∃ t r, conllu2graph record = Ok t ∧ UDTree_str t = Ok r ∧
         conllu2graph r = Ok t.
Proof.
  intros Hwf Hnd. destruct (conllu2graph_render record Hwf Hnd) as (t & Ht & Hr).
  exists t, (join [LF] (comment_lines (splitlines record) ++
                        node_lines (splitlines record))).
  split; [done|]. split; [done|]. by rewrite conllu2graph_rendered.
Qed.

Lemma rebuild_from_rendering_witness :
  ∃ t r, conllu2graph crlf_block = Ok t ∧ UDTree_str t = Ok r ∧
         conllu2graph r = Ok t.
Proof.
  apply (rebuild_from_rendering crlf_block).
  - apply (bool_decide_unpack _). vm_compute. exact I.
  - apply (bool_decide_unpack _). vm_compute. exact I.
Defined.

(** ** Keys without a node *)

Lemma mapM_raise {A B} (f : A → result B) l1 x l2 e :
  Forall (λ y, ∃ v, f y = Ok v) l1 → f x = Raise e →
  mapM f (l1 ++ x :: l2) = Raise e.
Proof.
  intros Hl1 Hx. induction Hl1 as [|y l1 [v Hy] _ IH]; cbn.
  - by rewrite Hx.
  - by rewrite Hy, IH.
Qed.

Lemma mapM_getitem_raise {B} (g : UDNode → B) (m : gmap str UDNode) ks1 k ks2 :
  Forall (λ k', is_Some (m !! k')) ks1 → m !! k = None →
  mapM (λ key, let* n := dict_getitem m key in Ok (g n)) (ks1 ++ k :: ks2)
    = Raise (KeyError k).
Proof.
  intros Hks Hk. apply mapM_raise.
  - eapply Forall_impl; [exact Hks|]. intros k' [n Hn].
    exists (g n). unfold dict_getitem. by rewrite Hn.
  - unfold dict_getitem. by rewrite Hk.
Qed.

(** X9. Rendering a tree one of whose keys has no node raises [KeyError] for
    the first such key. *)
Theorem render_missing_node (t : UDTree) (ks1 ks2 : list str) (k : str) :
  keys t = ks1 ++ k :: ks2 →
  Forall (λ k', is_Some (nodes t !! k')) ks1 →
  nodes t !! k = None →
  UDTree_str t = Raise (KeyError k).
Proof.
  intros Hkeys Hks Hk. unfold UDTree_str.
  by rewrite Hkeys, mapM_getitem_raise.
Qed.

Definition orphan_key_tree : UDTree :=
  mkUDTree [] [str_of_string "2"; str_of_string "5"; str_of_string "6"]
           {[ str_of_string "2" := node_cat ]} ∅.

Lemma render_missing_node_witness :
  UDTree_str orphan_key_tree = Raise (KeyError (str_of_string "5")).
Proof.
  apply (render_missing_node orphan_key_tree
           [str_of_string "2"] [str_of_string "6"] (str_of_string "5")).
  - reflexivity.
  - apply (bool_decide_unpack _). vm_compute. exact I.
  - vm_compute. reflexivity.
Defined.

(** X10. [get_sentence] on a tree one of whose keys has no node raises
    [KeyError] for the first such key. *)
Theorem sentence_missing_node (lower : str → str) (t : UDTree)
    (ks1 ks2 : list str) (k : str) :
  keys t = ks1 ++ k :: ks2 →
  Forall (λ k', is_Some (nodes t !! k')) ks1 →
  nodes t !! k = None →
  get_sentence lower t = Raise (KeyError k).
Proof.
  intros Hkeys Hks Hk. unfold get_sentence.
  by rewrite Hkeys, mapM_getitem_raise.
Qed.

Lemma sentence_missing_node_witness :
  get_sentence ascii_lower orphan_key_tree
    = Raise (KeyError (str_of_string "5")).
Proof.
  apply (sentence_missing_node ascii_lower orphan_key_tree
           [str_of_string "2"] [str_of_string "6"] (str_of_string "5")).
  - reflexivity.
  - apply (bool_decide_unpack _). vm_compute. exact I.
  - vm_compute. reflexivity.
Defined.

(** ** Queries after queries *)

Lemma graph_getitem_total_after g k k' :
  (graph_getitem g k).2 !!! k' = g !!! k'.
Proof.
  rewrite graph_getitem_snd. destruct (g !! k) eqn:E; [done|].
  rewrite !lookup_total_alt. destruct (decide (k = k')) as [<-|Hne].
  - by rewrite lookup_insert_eq, E.
  - by rewrite lookup_insert_ne.
Qed.

Lemma graph_getitem_twice g k :
  (graph_getitem (graph_getitem g k).2 k).2 = (graph_getitem g k).2.
Proof.
  rewrite !graph_getitem_snd. destruct (g !! k) eqn:E.
  - by rewrite E.
  - by rewrite lookup_insert_eq.
Qed.

(** X11. The key a query binds in the graph is not seen by later queries: after
    asking for the children of [k], the children of any key are what they
    were, and asking for the children of [k] again changes nothing more. *)
Theorem children_query_stable (t : UDTree) (k k' : str) :
  (get_node_children (get_node_children t k).2 k').1
    = (get_node_children t k').1 ∧
  (get_node_children (get_node_children t k).2 k).2
    = (get_node_children t k).2.
Proof.
  split.
  - rewrite !get_node_children_fst, get_node_children_snd. cbn [graph].
    by rewrite graph_getitem_total_after.
  - rewrite !get_node_children_snd. cbn. by rewrite graph_getitem_twice.
Qed.

(** ** The root of a built tree *)

Lemma children_built record k :
  (get_node_children
     (mkUDTree (comment_lines (splitlines record))
               (map ID (block_nodes record))
               (foldl add_node ∅ (block_nodes record))
               (foldl add_node_edges ∅ (block_nodes record))) k).1
  = map ID (filter (λ n, HEAD n ≠ str_underscore ∧ HEAD n = k)
                   (block_nodes record)).
Proof.
  rewrite get_node_children_fst. cbn [graph].
  rewrite foldl_add_node_edges_lookup_total, lookup_total_empty.
  apply children_of_edges.
Qed.

(** X12. On a well-formed block, [get_real_root] returns the ID of the first
    row whose head is "0", and raises [IndexError] when no row has the
    head "0". *)
Theorem real_root_of_block (record : str) :
  block_well_formed record →
  ∃ t, conllu2graph record = Ok t ∧
       (get_real_root t).1 =
         match filter (λ n, HEAD n = str_zero) (block_nodes record) with
         | n :: _ => Ok (ID n)
         | [] => Raise IndexError
         end.
Proof.
  intros Hwf. eexists. split; [by apply conllu2graph_Ok|].
  unfold get_real_root.
  pose proof (children_built record str_zero) as Hch.
  destruct (get_node_children _ str_zero) as [ch t']. cbn in Hch. cbn [fst].
  subst ch.
  rewrite (list_filter_iff _ (λ n, HEAD n = str_zero)).
  - by destruct (filter _ _).
  - intros n. split; [by intros [_ ?]|]. intros Hn. split; [|done].
    rewrite Hn. done.
Qed.

Definition two_roots_block : str :=
  join [LF]
    [row ["1"; "b"; "b"; "X"; "_"; "_"; "2"; "dep"; "_"; "_"];
     row ["2"; "a"; "a"; "X"; "_"; "_"; "0"; "root"; "_"; "_"];
     row ["3"; "c"; "c"; "X"; "_"; "_"; "0"; "root"; "_"; "_"]].

Lemma real_root_of_block_witness :
  ∃ t, conllu2graph two_roots_block = Ok t ∧
       (get_real_root t).1 =
         match filter (λ n, HEAD n = str_zero) (block_nodes two_roots_block) with
         | n :: _ => Ok (ID n)
         | [] => Raise IndexError
         end.
Proof.
  apply (real_root_of_block two_roots_block).
  apply (bool_decide_unpack _). vm_compute. exact I.
Defined.

Example two_roots_first :
  ∃ t, conllu2graph two_roots_block = Ok t ∧
       (get_real_root t).1 = Ok (str_of_string "2").
Proof. eexists. split; [reflexivity|]. by vm_compute. Qed.

(** ** Edges in pairs *)

Lemma elem_of_concat_map {A B} (f : A → list B) (l : list A) (y : B) :
  y ∈ concat (map f l) ↔ ∃ x, x ∈ l ∧ y ∈ f x.
Proof.
  induction l as [|a l IH]; cbn.
  - split; [by intros ?%elem_of_nil|]. by intros (? & ?%elem_of_nil & _).
  - rewrite elem_of_app, IH. split.
    + intros [H|(x & Hx & Hy)]; [exists a|exists x]; split; try done.
      * left.
      * by right.
    + intros (x & [->|Hx]%elem_of_cons & Hy); [by left|right; eauto].
Qed.

Lemma elem_of_edges_at k n e :
  e ∈ edges_at k n ↔
    HEAD n ≠ str_underscore ∧
    ((ID n = k ∧ e = up_edge n) ∨ (HEAD n = k ∧ e = down_edge n)).
Proof.
  unfold edges_at. case_bool_decide as Hu.
  - split; [by intros ?%elem_of_nil|]. by intros [? _].
  - rewrite elem_of_app. repeat case_bool_decide;
      rewrite ?list_elem_of_singleton, ?elem_of_nil; naive_solver.
Qed.

Lemma up_edge_elem_of ns k p r :
  mkUDEdge p r str_up ∈ concat (map (edges_at k) ns) ↔
    ∃ n, n ∈ ns ∧ HEAD n ≠ str_underscore ∧
         ID n = k ∧ HEAD n = p ∧ DEPREL n = r.
Proof.
  rewrite elem_of_concat_map. split.
  - intros (n & Hn & [Hu [[Hk He]|[Hk He]]]%elem_of_edges_at).
    + exists n. unfold up_edge in He. injection He as -> ->. done.
    + unfold down_edge in He. discriminate.
  - intros (n & Hn & Hu & Hk & Hp & Hr). exists n. split; [done|].
    apply elem_of_edges_at. split; [done|]. left. split; [done|].
    unfold up_edge. by rewrite Hp, Hr.
Qed.

Lemma down_edge_elem_of ns k c r :
  mkUDEdge c r str_down ∈ concat (map (edges_at k) ns) ↔
    ∃ n, n ∈ ns ∧ HEAD n ≠ str_underscore ∧
         ID n = c ∧ HEAD n = k ∧ DEPREL n = r.
Proof.
  rewrite elem_of_concat_map. split.
  - intros (n & Hn & [Hu [[Hk He]|[Hk He]]]%elem_of_edges_at).
    + unfold up_edge in He. discriminate.
    + exists n. unfold down_edge in He. injection He as -> ->. done.
  - intros (n & Hn & Hu & Hc & Hk & Hr). exists n. split; [done|].
    apply elem_of_edges_at. split; [done|]. right. split; [done|].
    unfold down_edge. by rewrite Hc, Hr.
Qed.

Lemma built_graph_lookup ns k :
  foldl add_node_edges ∅ ns !!! k = concat (map (edges_at k) ns).
Proof. by rewrite foldl_add_node_edges_lookup_total, lookup_total_empty. Qed.

(** X13. On a well-formed block, with or without repeated IDs, the edges come
    in pairs: the list at [k] holds the edge (p, r, up) exactly when the
    list at [p] holds the edge (k, r, down); and every edge of the graph
    is an up-edge or a down-edge. *)
Theorem edges_in_pairs (record : str) :
  block_well_formed record →
  ∃ t, conllu2graph record = Ok t ∧
       (∀ k p r, mkUDEdge p r str_up ∈ graph t !!! k ↔
                 mkUDEdge k r str_down ∈ graph t !!! p) ∧
       (∀ k e, e ∈ graph t !!! k →
               directionality e = str_up ∨ directionality e = str_down).
Proof.
  intros Hwf. eexists. split; [by apply conllu2graph_Ok|]. cbn [graph].
  split.
  - intros k p r. rewrite !built_graph_lookup.
    rewrite up_edge_elem_of, down_edge_elem_of. naive_solver.
  - intros k e. rewrite built_graph_lookup, elem_of_concat_map.
    intros (n & _ & [_ [[_ ->]|[_ ->]]]%elem_of_edges_at); [by left|by right].
Qed.

Lemma edges_in_pairs_witness :
  ∃ t, conllu2graph repeated_id_block = Ok t ∧
       (∀ k p r, mkUDEdge p r str_up ∈ graph t !!! k ↔
                 mkUDEdge k r str_down ∈ graph t !!! p) ∧
       (∀ k e, e ∈ graph t !!! k →
               directionality e = str_up ∨ directionality e = str_down).
Proof.
  apply (edges_in_pairs repeated_id_block).
  apply (bool_decide_unpack _). vm_compute. exact I.
Defined.

(** ** One parent *)

Lemma filter_none {A} (P : A → Prop) `{!∀ x, Decision (P x)} (l : list A) :
  (∀ x, x ∈ l → ¬ P x) → filter P l = [].
Proof.
  induction l as [|a l IH]; intros HP; [done|].
  rewrite filter_cons_False by (apply HP; left).
  apply IH. intros x Hx. apply HP. by right.
Qed.

Lemma up_edges_at ns k :
  filter (λ e, directionality e = str_up) (concat (map (edges_at k) ns)) =
  map up_edge (filter (λ n, HEAD n ≠ str_underscore ∧ ID n = k) ns).
Proof.
  induction ns as [|n ns IH]; [done|]. cbn [map concat].
  rewrite filter_app, IH. unfold edges_at.
  destruct (decide (HEAD n = str_underscore)) as [Hu|Hu].
  - rewrite bool_decide_eq_true_2 by done.
    by rewrite (filter_cons_False _ n) by naive_solver.
  - rewrite bool_decide_eq_false_2 by done.
    destruct (decide (ID n = k)) as [Hk|Hk].
    + rewrite (bool_decide_eq_true_2 (ID n = k)) by done.
      rewrite (filter_cons_True _ n) by done.
      by case_bool_decide.
    + rewrite (bool_decide_eq_false_2 (ID n = k)) by done.
      rewrite (filter_cons_False _ n) by naive_solver.
      by case_bool_decide.
Qed.

Lemma filter_ID_NoDup (Q : UDNode → Prop) `{!∀ n, Decision (Q n)} ns k :
  NoDup (map ID ns) →
  filter (λ n, Q n ∧ ID n = k) ns =
    match last (filter (λ n, ID n = k) ns) with
    | Some n => if decide (Q n) then [n] else []
    | None => []
    end.
Proof.
  induction ns as [|n ns IH]; intros Hnd; [done|].
  cbn in Hnd. apply NoDup_cons in Hnd as [Hn Hnd].
  destruct (decide (ID n = k)) as [Hk|Hk].
  - assert (∀ n', n' ∈ ns → ID n' ≠ k) as Hns.
    { intros n' Hn' Hk'. apply Hn. rewrite Hk, <- Hk'.
      by apply list_elem_of_In, in_map, list_elem_of_In. }
    rewrite (filter_cons_True (λ n, ID n = k)) by done.
    rewrite (filter_none (λ n, ID n = k)) by done. cbn [last].
    destruct (decide (Q n)) as [Hq|Hq].
    + rewrite filter_cons_True by done.
      rewrite filter_none; [done|]. intros n' Hn' [_ ?]. by eapply Hns.
    + rewrite filter_cons_False by naive_solver.
      rewrite filter_none; [done|]. intros n' Hn' [_ ?]. by eapply Hns.
  - rewrite filter_cons_False by naive_solver.
    rewrite (filter_cons_False (λ n, ID n = k)) by done. by apply IH.
Qed.

(** X14. On a well-formed block with pairwise distinct IDs a key has at most
    one up-edge: the up-edges at [k] are the one edge to the head of
    [nodes[k]] when [k] has a node with a head, and none otherwise. *)
Theorem one_up_edge (record : str) :
  block_well_formed record →
  NoDup (map line_ID (node_lines (splitlines record))) →
  ∃ t, conllu2graph record = Ok t ∧
       ∀ k, filter (λ e, directionality e = str_up) (graph t !!! k) =
              match nodes t !! k with
              | Some n => if decide (HEAD n ≠ str_underscore)
                          then [mkUDEdge (HEAD n) (DEPREL n) str_up] else []
              | None => []
              end.
Proof.
  intros Hwf Hnd. rewrite <- block_nodes_ID in Hnd by done.
  eexists. split; [by apply conllu2graph_Ok|]. cbn [graph nodes].
  intros k. rewrite built_graph_lookup, up_edges_at.
  rewrite foldl_add_node_last, lookup_empty.
  rewrite (filter_ID_NoDup (λ n, HEAD n ≠ str_underscore)) by done.
  destruct (last _) as [n|]; [|done]. by destruct (decide _).
Qed.

Lemma one_up_edge_witness :
  ∃ t, conllu2graph multiword_block = Ok t ∧
       ∀ k, filter (λ e, directionality e = str_up) (graph t !!! k) =
              match nodes t !! k with
              | Some n => if decide (HEAD n ≠ str_underscore)
                          then [mkUDEdge (HEAD n) (DEPREL n) str_up] else []
              | None => []
              end.
Proof.
  apply (one_up_edge multiword_block).
  - apply (bool_decide_unpack _). vm_compute. exact I.
  - apply (bool_decide_unpack _). vm_compute. exact I.
Defined.

(** With a repeated ID the key has one up-edge for each of its rows. *)
Example repeated_id_two_up_edges :
  ∃ t, conllu2graph repeated_id_block = Ok t ∧
       length (filter (λ e, directionality e = str_up)
                      (graph t !!! str_of_string "1")) = 2.
Proof. eexists. split; [reflexivity|]. by vm_compute. Qed.

(** ** Files *)

Lemma mapM_conllu2graph_cases blocks :
  (Forall block_well_formed blocks ∧
   ∃ ts, mapM conllu2graph blocks = Ok ts ∧
         Forall2 (λ b t, conllu2graph b = Ok t) blocks ts) ∨
  (¬ Forall block_well_formed blocks ∧
   mapM conllu2graph blocks = Raise AssertionError).
Proof.
  induction blocks as [|b blocks IH].
  - left. split; [constructor|]. exists []. split; [done|constructor].
  - cbn [mapM].
    destruct (conllu2graph_cases b) as [[Hb [t Ht]]|[Hb Ht]]; rewrite Ht.
    + destruct IH as [[Hbs (ts & Hts & Hall)]|[Hbs Hts]]; cbn; rewrite Hts.
      * left. split; [by constructor|]. exists (t :: ts).
        split; [done|by constructor].
      * right. split; [|done]. by intros [_ ?]%Forall_cons.
    + right. split; [|done]. by intros [? _]%Forall_cons.
Qed.

(** X15. A file is read all or nothing: when every block of the text is well
    formed the result has one tree for each block, in order; when one
    block is not, the call raises [AssertionError] and no tree of any
    block is returned. *)
Theorem file_all_or_nothing (txt : str) :
  let blocks := split_blank (strip_space txt) in
  (Forall block_well_formed blocks ∧
   ∃ ts, conllu2trees txt = Ok ts ∧ length ts = length blocks ∧
         Forall2 (λ b t, conllu2graph b = Ok t) blocks ts) ∨
  (¬ Forall block_well_formed blocks ∧
   conllu2trees txt = Raise AssertionError).
Proof.
  intros blocks. unfold conllu2trees. fold blocks.
  destruct (mapM_conllu2graph_cases blocks) as [[Hb (ts & Hts & Hall)]|[Hb Hts]].
  - left. split; [done|]. exists ts. split; [done|]. split; [|done].
    symmetry. by eapply Forall2_length.
  - by right.
Qed.

Lemma lstrip_space_all s :
  Forall (λ c, is_space c = true) s → lstrip_space s = [].
Proof. induction 1 as [|c s Hc _ IH]; [done|]. cbn. by rewrite Hc. Qed.

(** X16. A text of white space only, the empty text included, gives one tree,
    the empty one, not an empty list of trees. *)
Theorem blank_file_one_tree (txt : str) :
  Forall (λ c, is_space c = true) txt →
  conllu2trees txt = Ok [mkUDTree [] [] ∅ ∅].
Proof.
  intros Htxt. unfold conllu2trees, strip_space.
  rewrite (lstrip_space_all txt) by done. reflexivity.
Qed.

Lemma blank_file_one_tree_witness :
  conllu2trees [LF; SPACE; TAB; LF; LF; CR; LF] = Ok [mkUDTree [] [] ∅ ∅].
Proof.
  apply (blank_file_one_tree [LF; SPACE; TAB; LF; LF; CR; LF]).
  apply (bool_decide_unpack _). vm_compute. exact I.
Defined.

(** Three newlines between two blocks leave a newline at the head of the
    second block, whose first line is then empty. *)
Example three_newlines_between_blocks :
  split_blank (strip_space (example_block ++ [LF; LF; LF] ++ example_block))
    = [example_block; LF :: example_block] ∧
  conllu2trees (example_block ++ [LF; LF; LF] ++ example_block)
    = Raise AssertionError.
Proof. split; by vm_compute. Qed.

(** *** Splitting a joined text *)

Lemma split_blank_from_cons cur c s :
  c ≠ LF → split_blank_from cur (c :: s) = split_blank_from (cur ++ [c]) s.
Proof.
  intros Hc%N.eqb_neq. cbn [split_blank_from]. destruct s; [done|].
  by rewrite Hc.
Qed.

Lemma split_blank_from_line l : ∀ cur rest,
  LF ∉ l → split_blank_from cur (l ++ rest) = split_blank_from (cur ++ l) rest.
Proof.
  induction l as [|c l IH]; intros cur rest Hl.
  - by rewrite app_nil_r.
  - apply not_elem_of_cons in Hl as [Hc Hl].
    change ((c :: l) ++ rest) with (c :: (l ++ rest)).
    rewrite split_blank_from_cons by congruence.
    rewrite IH by done. by rewrite <- app_assoc.
Qed.

Lemma split_blank_from_LF cur c rest :
  c ≠ LF →
  split_blank_from cur (LF :: c :: rest)
    = split_blank_from (cur ++ [LF]) (c :: rest).
Proof.
  intros Hc. cbn [split_blank_from].
  assert ((c =? LF)%N = false) as -> by (by apply N.eqb_neq).
  by rewrite andb_false_r.
Qed.

Lemma split_blank_from_LF_LF cur rest :
  split_blank_from cur (LF :: LF :: rest) = cur :: split_blank_from [] rest.
Proof. reflexivity. Qed.

(** The lines of a block: not empty, and without a newline. *)
Definition block_line (l : str) : Prop := (LF ∉ l) ∧ l ≠ [].

Lemma split_blank_from_block lines : ∀ cur rest,
  Forall block_line lines →
  split_blank_from cur (join [LF] lines ++ rest)
    = split_blank_from (cur ++ join [LF] lines) rest.
Proof.
  induction lines as [|l lines IH]; intros cur rest Hlines.
  - cbn. by rewrite app_nil_r.
  - apply Forall_cons in Hlines as [[Hl Hne] Hlines].
    destruct lines as [|l2 lines].
    + cbn [join]. by apply split_blank_from_line.
    + change (join [LF] (l :: l2 :: lines))
        with (l ++ LF :: join [LF] (l2 :: lines)).
      rewrite <- !app_assoc. rewrite split_blank_from_line by done.
      cbn [app].
      assert (∃ c s, join [LF] (l2 :: lines) = c :: s ∧ c ≠ LF)
        as (c & s & Hj & Hc).
      { apply Forall_cons in Hlines as [[Hl2 Hne2] _].
        destruct l2 as [|c l2]; [done|].
        apply not_elem_of_cons in Hl2 as [Hc _].
        destruct lines; eexists c, _; (split; [reflexivity|congruence]). }
      rewrite Hj. cbn [app]. rewrite split_blank_from_LF by done.
      change (c :: s ++ rest) with ((c :: s) ++ rest).
      rewrite <- Hj, IH by done. f_equal.
      rewrite <- !app_assoc. reflexivity.
Qed.

Lemma split_blank_join blocks :
  blocks ≠ [] →
  Forall (λ b, ∃ lines, b = join [LF] lines ∧ Forall block_line lines) blocks →
  split_blank (join [LF; LF] blocks) = blocks.
Proof.
  unfold split_blank. intros Hne Hblocks.
  induction Hblocks as [|b blocks (lines & -> & Hlines) _ IH]; [done|].
  destruct blocks as [|b2 blocks].
  - cbn [join]. rewrite <- (app_nil_r (join [LF] lines)) at 1.
    by rewrite split_blank_from_block.
  - change (join [LF; LF] (join [LF] lines :: b2 :: blocks))
      with (join [LF] lines ++ LF :: LF :: join [LF; LF] (b2 :: blocks)).
    rewrite split_blank_from_block by done. cbn [app].
    rewrite split_blank_from_LF_LF. by rewrite IH.
Qed.

(** *** Reading a file back *)

(** A block given by its comment lines and the fields of its rows. *)
Definition block_text (b : list str * list (list str)) : str :=
  join [LF] (b.1 ++ map (join [TAB]) b.2).

Definition valid_block (b : list str * list (list str)) : Prop :=
  Forall valid_comment b.1 ∧ Forall valid_row b.2 ∧ NoDup (map row_ID b.2).

Lemma valid_block_lines b :
  valid_block b →
  Forall (λ l, clean_line l ∧ l ≠ []) (b.1 ++ map (join [TAB]) b.2).
Proof.
  intros (Hcs & Hfss & _). apply Forall_app. split.
  - eapply Forall_impl; [exact Hcs|]. intros c [Hc Hclean].
    split; [done|]. by apply comment_not_nil.
  - apply Forall_map. eapply Forall_impl; [exact Hfss|].
    intros fs Hfs. cbn. by destruct (valid_row_line fs Hfs) as (? & ? & _).
Qed.

Lemma valid_block_built b :
  valid_block b →
  ∃ t, conllu2graph (block_text b) = Ok t ∧ UDTree_str t = Ok (block_text b).
Proof.
  intros Hb. pose proof (valid_block_lines b Hb) as Hlines.
  destruct Hb as (Hcs & Hfss & Hnd). destruct b as [cs fss].
  unfold block_text in *. cbn [fst snd] in *.
  set (rows := map (join [TAB]) fss) in *.
  destruct (filter_lines_app cs rows) as [Hcl Hnl].
  { eapply Forall_impl; [exact Hcs|]. by intros ? []. }
  { apply Forall_map. eapply Forall_impl; [exact Hfss|].
    by intros ? (_ & _ & ?). }
  destruct (valid_rows_nodes fss Hfss) as (ns & Hns & Hstr & Hid).
  fold rows in Hns, Hstr.
  assert (well_formed (cs ++ rows)) as Hwf.
  { unfold well_formed. rewrite Hnl. apply Forall_map.
    eapply Forall_impl; [exact Hfss|]. intros fs Hfs. cbn.
    destruct (valid_row_line fs Hfs) as (_ & _ & ->). by destruct Hfs. }
  eexists. split.
  { unfold conllu2graph. rewrite splitlines_join by done.
    by apply conllu2graph_loop_Ok. }
  unfold lines_nodes. cbn [id_lines keys nodes graph app].
  rewrite Hcl, Hnl, Hns. rewrite UDTree_str_built by (by rewrite Hid).
  by rewrite Hstr.
Qed.

Lemma valid_blocks_built bs :
  Forall valid_block bs →
  ∃ ts, mapM conllu2graph (map block_text bs) = Ok ts ∧
        mapM UDTree_str ts = Ok (map block_text bs).
Proof.
  induction 1 as [|b bs Hb _ (ts & Hts & Hstr)].
  - by exists [].
  - destruct (valid_block_built b Hb) as (t & Ht & Hr).
    exists (t :: ts). cbn. by rewrite Ht, Hts, Hr, Hstr.
Qed.

Lemma valid_block_block_lines b :
  valid_block b →
  ∃ lines, block_text b = join [LF] lines ∧ Forall block_line lines.
Proof.
  intros Hb%valid_block_lines. eexists. split; [reflexivity|].
  eapply Forall_impl; [exact Hb|]. intros l [Hl Hne].
  split; [by apply clean_line_no_LF|done].
Qed.

(** X17. A text made of valid blocks (comment lines, then rows of ten fields
    without tab or line boundary, with pairwise distinct IDs) joined by
    one blank line, with no white space at its two ends, is read back:
    [conllu2trees] returns one tree for each block, and the trees render
    as the blocks. *)
Theorem file_round_trip (bs : list (list str * list (list str))) :
  bs ≠ [] →
  Forall valid_block bs →
  strip_space (join [LF; LF] (map block_text bs))
    = join [LF; LF] (map block_text bs) →
  ∃ ts, conllu2trees (join [LF; LF] (map block_text bs)) = Ok ts ∧
        mapM UDTree_str ts = Ok (map block_text bs).
Proof.
  intros Hne Hbs Hstrip. unfold conllu2trees. rewrite Hstrip.
  rewrite split_blank_join.
  - by apply valid_blocks_built.
  - by destruct bs.
  - apply Forall_map. eapply Forall_impl; [exact Hbs|].
    intros b Hb. by apply valid_block_block_lines.
Qed.

Definition example_file : list (list str * list (list str)) :=
  [(example_comments, example_rows);
   ([], map (map str_of_string)
          [["1-2"; "del"; "_"; "_"; "_"; "_"; "_"; "_"; "_"; "_"];
           ["1"; "de"; "de"; "ADP"; "_"; "_"; "2"; "case"; "_"; "_"];
           ["2"; "el"; "el"; "DET"; "_"; "_"; "0"; "root"; "_"; "_"]])].

Lemma file_round_trip_witness :
  ∃ ts, conllu2trees (join [LF; LF] (map block_text example_file)) = Ok ts ∧
        mapM UDTree_str ts = Ok (map block_text example_file).
Proof.
  apply (file_round_trip example_file).
  - discriminate.
  - unfold valid_block, valid_comment, valid_row, clean_line.
    apply (bool_decide_unpack _). vm_compute. exact I.
  - vm_compute. reflexivity.
Defined.

Example example_file_blocks :
  map block_text example_file = [example_block; multiword_block].
Proof. reflexivity. Qed.

(** ** More on built trees *)

(** The second field of a line, its FORM. *)
Definition line_FORM (line : str) : str := default [] (split TAB line !! 1).

Lemma omap_line_node_FORM ls :
  Forall (λ l, length (split TAB l) = 10 ∧ line_fields l = split TAB l) ls →
  map FORM (omap line_node ls) = map line_FORM ls.
Proof.
  induction 1 as [|l ls [Hlen Hf] _ IH]; [done|]. cbn [omap list_omap].
  destruct (line_node_length l) as [n Hn]; [by rewrite Hf|].
  rewrite Hn. cbn [map]. rewrite IH. f_equal.
  apply line_node_Some in Hn. unfold line_FORM. by rewrite <- Hf, <- Hn.
Qed.

Lemma get_sentence_built lower cs ns g :
  NoDup (map ID ns) →
  get_sentence lower (mkUDTree cs (map ID ns) (foldl add_node ∅ ns) g) =
    Ok (join [SPACE] (map lower (map FORM ns))).
Proof.
  intros Hnd. unfold get_sentence. cbn.
  rewrite (mapM_map_Ok _ ID (λ n, lower (FORM n))).
  - by rewrite map_map.
  - intros n Hn. unfold dict_getitem. by rewrite foldl_add_node_NoDup.
Qed.

(** X18. On a well-formed block with pairwise distinct IDs, the sentence is
    the second field of each row, lowercased, in the order of the rows,
    joined by single spaces. *)
Theorem sentence_of_block (lower : str → str) (record : str) :
  block_well_formed record →
  NoDup (map line_ID (node_lines (splitlines record))) →
  ∃ t, conllu2graph record = Ok t ∧
       get_sentence lower t =
         Ok (join [SPACE]
               (map lower (map line_FORM (node_lines (splitlines record))))).
Proof.
  intros Hwf Hnd. rewrite <- block_nodes_ID in Hnd by done.
  eexists. split; [by apply conllu2graph_Ok|].
  rewrite get_sentence_built by done. unfold block_nodes, lines_nodes.
  by rewrite omap_line_node_FORM by (by apply block_node_lines_fields).
Qed.

Lemma sentence_of_block_witness :
  ∃ t, conllu2graph example_block = Ok t ∧
       get_sentence ascii_lower t =
         Ok (join [SPACE]
               (map ascii_lower
                  (map line_FORM (node_lines (splitlines example_block))))).
Proof.
  apply (sentence_of_block ascii_lower example_block).
  - apply (bool_decide_unpack _). vm_compute. exact I.
  - apply (bool_decide_unpack _). vm_compute. exact I.
Defined.

Lemma mapM_total {A B} (f : A → result B) (l : list A) :
  Forall (λ x, ∃ y, f x = Ok y) l → ∃ l', mapM f l = Ok l'.
Proof.
  induction 1 as [|x l [y Hy] _ [l' IH]].
  - by exists [].
  - exists (y :: l'). cbn. by rewrite Hy, IH.
Qed.

Lemma mapM_getitem_total {B} (g : UDNode → B) (m : gmap str UDNode) ks :
  Forall (λ k, is_Some (m !! k)) ks →
  ∃ l, mapM (λ key, let* n := dict_getitem m key in Ok (g n)) ks = Ok l.
Proof.
  intros Hks. apply mapM_total. eapply Forall_impl; [exact Hks|].
  intros k [n Hn]. exists (g n). unfold dict_getitem. by rewrite Hn.
Qed.

(** X19. A tree the builder returned always renders and always has a
    sentence: no key of [keys] is without a node, repeated IDs or not. *)
Theorem built_tree_renders (record : str) (t : UDTree) :
  conllu2graph record = Ok t →
  (∃ r, UDTree_str t = Ok r) ∧
  (∀ lower, ∃ s, get_sentence lower t = Ok s).
Proof.
  intros Hks%conllu2graph_keys_have_nodes. split.
  - unfold UDTree_str.
    destruct (mapM_getitem_total UDNode_str (nodes t) (keys t) Hks) as [l ->].
    by eexists.
  - intros lower. unfold get_sentence.
    destruct (mapM_getitem_total (λ n, lower (FORM n)) (nodes t) (keys t) Hks)
      as [l ->].
    by eexists.
Qed.

Definition repeated_id_tree : UDTree :=
  match conllu2graph repeated_id_block with
  | Ok t => t
  | Raise _ => mkUDTree [] [] ∅ ∅
  end.

Lemma built_tree_renders_witness :
  (∃ r, UDTree_str repeated_id_tree = Ok r) ∧
  (∀ lower, ∃ s, get_sentence lower repeated_id_tree = Ok s).
Proof.
  apply (built_tree_renders repeated_id_block repeated_id_tree).
  vm_compute. reflexivity.
Defined.

(** X20. On a well-formed block, every child [get_node_children] returns, for
    any key, is a key of the tree and has a node. *)
Theorem children_are_keys (record : str) :
  block_well_formed record →
  ∃ t, conllu2graph record = Ok t ∧
       ∀ k c, c ∈ (get_node_children t k).1 →
              c ∈ keys t ∧ is_Some (nodes t !! c).
Proof.
  intros Hwf. eexists. split; [by apply conllu2graph_Ok|].
  intros k c. rewrite children_built. cbn [keys nodes].
  intros Hc%list_elem_of_In%in_map_iff.
  destruct Hc as (n & <- & Hn%list_elem_of_In%list_elem_of_filter).
  destruct Hn as [_ Hn].
  assert (ID n ∈ map ID (block_nodes record)) as Hin
    by (by apply list_elem_of_In, in_map, list_elem_of_In).
  split; [done|]. apply foldl_add_node_lookup. by right.
Qed.

Lemma children_are_keys_witness :
  ∃ t, conllu2graph two_children_block = Ok t ∧
       ∀ k c, c ∈ (get_node_children t k).1 →
              c ∈ keys t ∧ is_Some (nodes t !! c).
Proof.
  apply (children_are_keys two_children_block).
  apply (bool_decide_unpack _). vm_compute. exact I.
Defined.

(** A head need not be a key: the parent of a row can be missing. *)
Example head_without_row :
  ∃ t, conllu2graph
         (row ["1"; "a"; "a"; "X"; "_"; "_"; "7"; "dep"; "_"; "_"]) = Ok t ∧
       (get_node_children t (str_of_string "7")).1 = [str_of_string "1"] ∧
       nodes t !! str_of_string "7" = None.
Proof. eexists. split; [reflexivity|]. split; by vm_compute. Qed.

(** *** Every line is kept *)

Lemma split_from_first sep s : ∀ cur,
  ∃ r rest, split_from sep cur s = (cur ++ r) :: rest.
Proof.
  induction s as [|c s IH]; intros cur; cbn.
  - exists [], []. by rewrite app_nil_r.
  - destruct (c =? sep)%N.
    + exists [], (split_from sep [] s). by rewrite app_nil_r.
    + destruct (IH (cur ++ [c])) as (r & rest & ->).
      exists (c :: r), rest. by rewrite <- app_assoc.
Qed.

Lemma line_ID_startswith line :
  startswith HASH (line_ID line) = startswith HASH line.
Proof.
  unfold line_ID, split. destruct line as [|c s]; [done|]. cbn.
  destruct (N.eqb_spec c TAB) as [->|_]; [done|].
  destruct (split_from_first TAB s [c]) as (r & rest & ->). done.
Qed.

Lemma filter_length_split {A} (P : A → Prop) `{!∀ x, Decision (P x)} l :
  length (filter P l) + length (filter (λ x, ¬ P x) l) = length l.
Proof.
  induction l as [|a l IH]; [done|].
  destruct (decide (P a)).
  - rewrite filter_cons_True by done.
    rewrite filter_cons_False by naive_solver. cbn. lia.
  - rewrite filter_cons_False by done.
    rewrite filter_cons_True by done. cbn. lia.
Qed.

(** X21. On a well-formed block every line is kept, as a comment or as a key:
    [id_lines] holds lines that start with "#" only, no key starts with
    "#", and the two lists together are as long as the block has lines. *)
Theorem every_line_kept (record : str) :
  block_well_formed record →
  ∃ t, conllu2graph record = Ok t ∧
       Forall (λ l, startswith HASH l = true) (id_lines t) ∧
       Forall (λ k, startswith HASH k = false) (keys t) ∧
       length (id_lines t) + length (keys t) = length (splitlines record).
Proof.
  intros Hwf. eexists. split; [by apply conllu2graph_Ok|].
  cbn [id_lines keys]. rewrite block_nodes_ID by done.
  split; [|split].
  - apply Forall_forall. by intros l [? _]%list_elem_of_filter.
  - apply Forall_map, Forall_forall.
    intros l [Hl _]%list_elem_of_filter. cbn.
    rewrite line_ID_startswith. unfold is_comment in Hl.
    by destruct (startswith HASH l).
  - rewrite length_map. apply filter_length_split.
Qed.

Lemma every_line_kept_witness :
  ∃ t, conllu2graph crlf_block = Ok t ∧
       Forall (λ l, startswith HASH l = true) (id_lines t) ∧
       Forall (λ k, startswith HASH k = false) (keys t) ∧
       length (id_lines t) + length (keys t) = length (splitlines crlf_block).
Proof.
  apply (every_line_kept crlf_block).
  apply (bool_decide_unpack _). vm_compute. exact I.
Defined.

(** *** White space around a file *)

Lemma lstrip_space_app_l ws s :
  Forall (λ c, is_space c = true) ws → lstrip_space (ws ++ s) = lstrip_space s.
Proof. induction 1 as [|c ws Hc _ IH]; [done|]. cbn. by rewrite Hc. Qed.

Lemma lstrip_space_nil s :
  lstrip_space s = [] → Forall (λ c, is_space c = true) s.
Proof.
  induction s as [|c s IH]; [constructor|]. cbn.
  destruct (is_space c) eqn:Hc; [|done]. intros Hs. constructor; auto.
Qed.

Lemma lstrip_space_app_r s w :
  lstrip_space s ≠ [] → lstrip_space (s ++ w) = lstrip_space s ++ w.
Proof.
  induction s as [|c s IH]; [done|]. cbn.
  destruct (is_space c); [apply IH|done].
Qed.

Lemma strip_space_all ws :
  Forall (λ c, is_space c = true) ws → strip_space ws = [].
Proof.
  intros Hws. unfold strip_space. by rewrite (lstrip_space_all ws).
Qed.

Lemma strip_space_around ws1 txt ws2 :
  Forall (λ c, is_space c = true) ws1 →
  Forall (λ c, is_space c = true) ws2 →
  strip_space (ws1 ++ txt ++ ws2) = strip_space txt.
Proof.
  intros H1 H2. unfold strip_space at 1. rewrite lstrip_space_app_l by done.
  destruct (lstrip_space txt) as [|c u] eqn:Hu.
  - apply lstrip_space_nil in Hu.
    rewrite (lstrip_space_all (txt ++ ws2)) by (by apply Forall_app).
    by rewrite strip_space_all.
  - rewrite lstrip_space_app_r by (by rewrite Hu).
    rewrite reverse_app, lstrip_space_app_l by (by apply Forall_reverse).
    unfold strip_space. by rewrite Hu.
Qed.

(** X22. White space before and after the text of a file, such as the blank
    line that ends it, changes nothing in what [conllu2trees] returns. *)
Theorem file_outer_space_ignored (ws1 txt ws2 : str) :
  Forall (λ c, is_space c = true) ws1 →
  Forall (λ c, is_space c = true) ws2 →
  conllu2trees (ws1 ++ txt ++ ws2) = conllu2trees txt.
Proof.
  intros H1 H2. unfold conllu2trees. by rewrite strip_space_around.
Qed.

Lemma file_outer_space_ignored_witness :
  conllu2trees ([LF] ++ example_block ++ [LF; LF])
    = conllu2trees example_block.
Proof.
  apply (file_outer_space_ignored [LF] example_block [LF; LF]).
  - apply (bool_decide_unpack _). vm_compute. exact I.
  - apply (bool_decide_unpack _). vm_compute. exact I.
Defined.
